(** * gogen: the intermediate model, the type-mapping configuration,
    the extractor's expression conversion and the flattening engine.

  A shallow embedding of
  - [internal/model]      (TypeKind, Type, Field, TypeRef, StructTag),
  - [internal/config]     (Config, Options, merge, MapType, ShouldIncludeType),
  - [internal/parser]     (extractFields, typeRefFromExpr),
  - [internal/generator]  (mapType, filterTypes, flattenEmbedded,
                           flattenFields, parseValidateTag).

  Go strings are modelled as [string], Go maps as [gmap], the [seen]
  map of the flattening engine (only ever holding [true]) as a [gset]. *)

From Stdlib Require Import Ascii.
From stdpp Require Import gmap strings list fin_maps.

Set Warnings "-register-all,-clear-no-such-hyp".

(** ** Byte-string helpers from Go's [strings] package

    Go strings are byte sequences.  The models below are exact on ASCII
    input; [TrimSpace] additionally trims Unicode white space encoded in
    several bytes, which the statements below exclude by hypothesis. *)

Module gostrings.

(** The ASCII white space of [unicode.IsSpace]: tab, line feed, vertical
    tab, form feed, carriage return and space. *)
Definition isSpace (c : ascii) : bool :=
  let n := nat_of_ascii c in
  ((9 <=? n) && (n <=? 13))%nat || (n =? 32)%nat.

Fixpoint TrimLeftSpace (s : string) : string :=
  match s with
  | String c r => if isSpace c then TrimLeftSpace r else s
  | EmptyString => EmptyString
  end.

(** Trailing white space removed: the suffix is kept only when something
    other than white space follows. *)
Fixpoint TrimRightSpace (s : string) : string :=
  match s with
  | String c r =>
      match TrimRightSpace r with
      | EmptyString => if isSpace c then EmptyString else String c EmptyString
      | r' => String c r'
      end
  | EmptyString => EmptyString
  end.

(** [strings.TrimSpace]. *)
Definition TrimSpace (s : string) : string := TrimRightSpace (TrimLeftSpace s).

(** [strings.Trim(s, cutset)] for a one-byte cutset. *)
Fixpoint TrimLeft (s : string) (cut : ascii) : string :=
  match s with
  | String c r => if Ascii.eqb c cut then TrimLeft r cut else s
  | EmptyString => EmptyString
  end.

Fixpoint TrimRight (s : string) (cut : ascii) : string :=
  match s with
  | String c r =>
      match TrimRight r cut with
      | EmptyString => if Ascii.eqb c cut then EmptyString else String c EmptyString
      | r' => String c r'
      end
  | EmptyString => EmptyString
  end.

Definition Trim (s : string) (cut : ascii) : string := TrimRight (TrimLeft s cut) cut.

(** [strings.Split(s, sep)] for a one-byte separator: always at least
    one piece. *)
Fixpoint Split (s : string) (sep : ascii) : list string :=
  match s with
  | EmptyString => [EmptyString]
  | String c r =>
      if Ascii.eqb c sep then EmptyString :: Split r sep
      else match Split r sep with
           | p :: ps => String c p :: ps
           | [] => [String c EmptyString]
           end
  end.

(** [strings.Index(s, sep)] for a one-byte separator; [None] is Go's -1. *)
Fixpoint Index (s : string) (sep : ascii) : option nat :=
  match s with
  | EmptyString => None
  | String c r =>
      if Ascii.eqb c sep then Some 0%nat
      else match Index r sep with
           | Some i => Some (S i)
           | None => None
           end
  end.

(** The slices [s[:n]] and [s[n:]], for [n] within bounds. *)
Fixpoint take (n : nat) (s : string) : string :=
  match n, s with
  | S n', String c r => String c (take n' r)
  | _, _ => EmptyString
  end.

Fixpoint drop (n : nat) (s : string) : string :=
  match n, s with
  | S n', String _ r => drop n' r
  | _, _ => s
  end.

(** [strings.Join(parts, sep)] for a one-byte separator. *)
Fixpoint Join (parts : list string) (sep : ascii) : string :=
  match parts with
  | [] => EmptyString
  | [p] => p
  | p :: ps => p +:+ String sep (Join ps sep)
  end.

(** [strings.HasPrefix]. *)
Fixpoint HasPrefix (s prefix : string) : bool :=
  match prefix, s with
  | EmptyString, _ => true
  | String p ps, String c cs => Ascii.eqb c p && HasPrefix cs ps
  | String _ _, EmptyString => false
  end.

(** [strings.Contains]: some suffix of [s] starts with [substr]. *)
Fixpoint Contains (s substr : string) : bool :=
  HasPrefix s substr
  || match s with
     | String _ r => Contains r substr
     | EmptyString => false
     end.

(** [strings.Join] for any separator. *)
Fixpoint JoinStr (parts : list string) (sep : string) : string :=
  match parts with
  | [] => EmptyString
  | [p] => p
  | p :: ps => p +:+ sep +:+ JoinStr ps sep
  end.

(** [unicode.IsUpper], [unicode.IsLower], [unicode.ToLower] and
    [unicode.ToUpper] on ASCII; other bytes are left alone. *)
Definition isUpper (c : ascii) : bool :=
  let n := nat_of_ascii c in ((65 <=? n) && (n <=? 90))%nat.

Definition isLower (c : ascii) : bool :=
  let n := nat_of_ascii c in ((97 <=? n) && (n <=? 122))%nat.

Definition toLower (c : ascii) : ascii :=
  if isUpper c then ascii_of_nat (nat_of_ascii c + 32) else c.

Definition toUpper (c : ascii) : ascii :=
  if isLower c then ascii_of_nat (nat_of_ascii c - 32) else c.

(** [strings.ToLower]. *)
Fixpoint ToLower (s : string) : string :=
  match s with
  | EmptyString => EmptyString
  | String c r => String (toLower c) (ToLower r)
  end.

End gostrings.

(** ** internal/model *)

Module model.

(** [TypeKind] and its nine constants. *)
Inductive TypeKind : Set :=
| KindStruct | KindAlias | KindNamed | KindBasic | KindSlice
| KindArray | KindMap | KindPointer | KindInterface.

#[global] Instance TypeKind_eq_dec : EqDecision TypeKind.
Proof. solve_decision. Defined.

(** [TypeRef]: the children are Go pointers, [nil] when absent. *)
Inductive TypeRef : Type := mkTypeRef {
  Kind : TypeKind;
  Name : string;
  Package : string;
  Elem : option TypeRef;
  Key : option TypeRef;
  Value : option TypeRef;
  Raw : string
}.

(** [StructTag]. *)
Record StructTag : Type := mkStructTag {
  TagRaw : string;
  Values : gmap string string
}.

(** [Field]. *)
Record Field : Type := mkField {
  FName : string;
  FType : TypeRef;
  Tag : StructTag;
  FDoc : string;
  FIsExported : bool;
  IsEmbedded : bool
}.

(** [Type], a type declaration. *)
Record Type_ : Type := mkType {
  TName : string;
  TKind : TypeKind;
  Doc : string;
  Fields : list Field;
  Underlying : option TypeRef;
  IsExported : bool
}.

(** [File]; imports play no part in what follows and are left out. *)
Record File : Type := mkFile {
  FilePackage : string;
  Path : string;
  Types : list Type_
}.

End model.

Import model.

(** ** internal/config *)

Module config.

Record Options : Type := mkOptions {
  PerType : bool;
  ExportedOnly : bool;
  TagKey : string;
  IncludeTypes : list string;
  ExcludeTypes : list string
}.

Record Config : Type := mkConfig {
  TypeMappings : gmap string string;
  Opts : Options
}.

(** [DefaultOptions]. *)
Definition DefaultOptions : Options :=
  {| PerType := false; ExportedOnly := true; TagKey := "json";
     IncludeTypes := []; ExcludeTypes := [] |}.

(** The override document as written by the user: every option may be
    absent.  [LoadFile] unmarshals it into a zero-valued [Config], so
    an absent field reads as Go's zero value. *)
Record Document : Type := mkDocument {
  docTypeMappings : option (gmap string string);
  docPerType : option bool;
  docExportedOnly : option bool;
  docTagKey : option string;
  docIncludeTypes : option (list string);
  docExcludeTypes : option (list string)
}.

(** [var loaded Config] followed by [Unmarshal(data, &loaded)]: a nil
    map ranges like an empty one, a nil slice like an empty one. *)
Definition unmarshal (d : Document) : Config :=
  {| TypeMappings := default ∅ (docTypeMappings d);
     Opts := {| PerType := default false (docPerType d);
                ExportedOnly := default false (docExportedOnly d);
                TagKey := default "" (docTagKey d);
                IncludeTypes := default [] (docIncludeTypes d);
                ExcludeTypes := default [] (docExcludeTypes d) |} |}.

(** [merge]: the receiver [c] updated with [loaded].  The loop
    [c.TypeMappings[k] = v] over the loaded map is a left-biased union;
    the receiver comes from [New], which allocates its map. *)
Definition merge (c loaded : Config) : Config :=
  {| TypeMappings := TypeMappings loaded ∪ TypeMappings c;
     Opts :=
       {| TagKey := if decide (TagKey (Opts loaded) = "")
                    then TagKey (Opts c) else TagKey (Opts loaded);
          PerType := if PerType (Opts loaded) then true else PerType (Opts c);
          ExportedOnly := ExportedOnly (Opts loaded);
          IncludeTypes := IncludeTypes (Opts loaded);
          ExcludeTypes := ExcludeTypes (Opts loaded) |} |}.

(** [MapType]: lookup with identity fallback. *)
Definition MapType (c : Config) (goType : string) : string :=
  match TypeMappings c !! goType with
  | Some mapped => mapped
  | None => goType
  end.

(** The two search loops of [ShouldIncludeType]. *)
Fixpoint found_in (name : string) (l : list string) : bool :=
  match l with
  | [] => false
  | t :: rest => if decide (t = name) then true else found_in name rest
  end.

(** [ShouldIncludeType]. *)
Definition ShouldIncludeType (c : Config) (name : string) (isExported : bool) : bool :=
  if ExportedOnly (Opts c) && negb isExported then false
  else if (0 <? length (IncludeTypes (Opts c)))%nat
            && negb (found_in name (IncludeTypes (Opts c))) then false
  else if found_in name (ExcludeTypes (Opts c)) then false
  else true.

(** [DefaultTypeMappings]. *)
Definition DefaultTypeMappings : gmap string string :=
  list_to_map
    [ ("string", "string"); ("bool", "boolean"); ("int", "number");
      ("int8", "number"); ("int16", "number"); ("int32", "number");
      ("int64", "number"); ("uint", "number"); ("uint8", "number");
      ("uint16", "number"); ("uint32", "number"); ("uint64", "number");
      ("float32", "number"); ("float64", "number"); ("complex64", "number");
      ("complex128", "number"); ("byte", "number"); ("rune", "number");
      ("uintptr", "number");
      ("[]byte", "string"); ("time.Time", "string");
      ("time.Duration", "number"); ("interface{}", "unknown");
      ("any", "unknown"); ("error", "string");
      ("uuid.UUID", "string"); ("github.com/google/uuid.UUID", "string");
      ("github.com/gofrs/uuid.UUID", "string");
      ("github.com/satori/go.uuid.UUID", "string");
      ("decimal.Decimal", "string");
      ("github.com/shopspring/decimal.Decimal", "string");
      ("json.RawMessage", "unknown") ].

(** [New]. *)
Definition New : Config :=
  {| TypeMappings := DefaultTypeMappings; Opts := DefaultOptions |}.

End config.

Import config.

(** ** go/ast: the type expressions the extractor walks *)

Module ast.

(** [ast.Expr].  The nine shapes [typeRefFromExpr] tells apart, and
    further expression nodes, which all reach its [default] arm.  The
    method list of an interface, the signature of a function and the
    direction of a channel are never read and are left out. *)
Inductive Expr : Type :=
| Ident (name : string)
| SelectorExpr (X : Expr) (Sel : string)
| StarExpr (X : Expr)
| ArrayType (Len : option Expr) (Elt : Expr)
| MapType (K : Expr) (V : Expr)
| InterfaceType
| ChanType (V : Expr)
| FuncType
| Ellipsis (Elt : Expr)
| StructType
| ParenExpr (X : Expr)
| IndexExpr (X : Expr) (Index : Expr)
| BasicLit (value : string)
| BadExpr.

(** One entry of a struct's field list, [ast.Field]: the bound names,
    the type, the tag literal and the text of the doc comment group. *)
Record Field : Type := mkField {
  Names : list string;
  Type_ : Expr;
  Tag : option string;
  Doc : option string
}.

End ast.

(** ** internal/parser *)

Module parser.

(** [typeRefFromExpr]. *)
Fixpoint typeRefFromExpr (expr : ast.Expr) : TypeRef :=
  match expr with
  | ast.Ident name =>
      {| Kind := KindBasic; Name := name; Package := "";
         Elem := None; Key := None; Value := None; Raw := name |}
  | ast.SelectorExpr X Sel =>
      let pkg := match X with ast.Ident n => n | _ => "" end in
      {| Kind := KindNamed; Name := Sel; Package := pkg;
         Elem := None; Key := None; Value := None; Raw := pkg +:+ "." +:+ Sel |}
  | ast.StarExpr X =>
      let elem := typeRefFromExpr X in
      {| Kind := KindPointer; Name := ""; Package := "";
         Elem := Some elem; Key := None; Value := None; Raw := "*" +:+ Raw elem |}
  | ast.ArrayType Len Elt =>
      let elem := typeRefFromExpr Elt in
      match Len with
      | None =>
          {| Kind := KindSlice; Name := ""; Package := "";
             Elem := Some elem; Key := None; Value := None; Raw := "[]" +:+ Raw elem |}
      | Some _ =>
          {| Kind := KindArray; Name := ""; Package := "";
             Elem := Some elem; Key := None; Value := None; Raw := "[...]" +:+ Raw elem |}
      end
  | ast.MapType K V =>
      let key := typeRefFromExpr K in
      let value := typeRefFromExpr V in
      {| Kind := KindMap; Name := ""; Package := "";
         Elem := None; Key := Some key; Value := Some value;
         Raw := "map[" +:+ Raw key +:+ "]" +:+ Raw value |}
  | ast.InterfaceType =>
      {| Kind := KindInterface; Name := "interface{}"; Package := "";
         Elem := None; Key := None; Value := None; Raw := "interface{}" |}
  | ast.ChanType V =>
      let elem := typeRefFromExpr V in
      {| Kind := KindBasic; Name := "chan"; Package := "";
         Elem := Some elem; Key := None; Value := None; Raw := "chan " +:+ Raw elem |}
  | ast.FuncType =>
      {| Kind := KindBasic; Name := "func"; Package := "";
         Elem := None; Key := None; Value := None; Raw := "func" |}
  | ast.Ellipsis Elt =>
      let elem := typeRefFromExpr Elt in
      {| Kind := KindSlice; Name := ""; Package := "";
         Elem := Some elem; Key := None; Value := None; Raw := "..." +:+ Raw elem |}
  | _ =>
      {| Kind := KindBasic; Name := "unknown"; Package := "";
         Elem := None; Key := None; Value := None; Raw := "unknown" |}
  end.

(** [commentText]. *)
Definition commentText (cg : option string) : string :=
  match cg with
  | None => ""
  | Some text => gostrings.TrimSpace text
  end.

(** The tag keys [parseTag] looks for, in its order. *)
Definition tagKeys : list string :=
  ["json"; "yaml"; "xml"; "db"; "form"; "validate"; "binding"; "bson"].

Section Extract.

(** Two functions of Go's library the extractor calls:
    [ast.IsExported] and [reflect.StructTag.Lookup]. *)
Variable IsExported : string → bool.
Variable Lookup : string → string → option string.

(** [parseTag]. *)
Definition parseTag (lit : option string) : StructTag :=
  match lit with
  | None => {| TagRaw := ""; Values := ∅ |}
  | Some value =>
      let raw := gostrings.Trim value "`" in
      {| TagRaw := raw;
         Values := foldl (λ values key,
                            match Lookup raw key with
                            | Some v => <[key := v]> values
                            | None => values
                            end) ∅ tagKeys |}
  end.

(** The fields one entry of the field list contributes. *)
Definition extractField (f : ast.Field) : list model.Field :=
  let typeRef := typeRefFromExpr (ast.Type_ f) in
  let tag := parseTag (ast.Tag f) in
  let doc := commentText (ast.Doc f) in
  match ast.Names f with
  | [] =>
      [ {| FName := Name typeRef; FType := typeRef; Tag := tag; FDoc := doc;
           IsEmbedded := true; FIsExported := IsExported (Name typeRef) |} ]
  | names =>
      map (λ name,
             {| FName := name; FType := typeRef; Tag := tag; FDoc := doc;
                IsEmbedded := false; FIsExported := IsExported name |}) names
  end.

(** [extractFields]; a nil field list is the empty list. *)
Definition extractFields (fieldList : list ast.Field) : list model.Field :=
  concat (map extractField fieldList).

(** [ast.TypeSpec]: the declared name, whether the declaration has the
    alias form [type A = B], and the declared type.  [StructFields] is
    the field list of the declared type when that is a struct type. *)
Record TypeSpec : Type := mkTypeSpec {
  SpecName : string;
  Assign : bool;
  SpecType : ast.Expr;
  StructFields : list ast.Field
}.

(** [extractType]; [doc] is the text of the declaration's comment group. *)
Definition extractType (spec : TypeSpec) (doc : option string) : model.Type_ :=
  match SpecType spec with
  | ast.StructType =>
      {| TName := SpecName spec; TKind := KindStruct; model.Doc := commentText doc;
         Fields := extractFields (StructFields spec); Underlying := None;
         model.IsExported := IsExported (SpecName spec) |}
  | ast.InterfaceType =>
      {| TName := SpecName spec; TKind := KindInterface; model.Doc := commentText doc;
         Fields := []; Underlying := None;
         model.IsExported := IsExported (SpecName spec) |}
  | typeExpr =>
      {| TName := SpecName spec;
         TKind := if Assign spec then KindAlias else KindNamed;
         model.Doc := commentText doc;
         Fields := []; Underlying := Some (typeRefFromExpr typeExpr);
         model.IsExported := IsExported (SpecName spec) |}
  end.

End Extract.

End parser.

(** ** internal/generator *)

Module generator.

(** [mapType]. *)
Fixpoint mapType (cfg : Config) (t : TypeRef) {struct t} : string :=
  if negb (String.eqb (MapType cfg (Raw t)) (Raw t)) then MapType cfg (Raw t)
  else
    let fullName := Package t +:+ "." +:+ Name t in
    if negb (String.eqb (Package t) "")
         && negb (String.eqb (MapType cfg fullName) fullName)
    then MapType cfg fullName
    else if negb (String.eqb (MapType cfg (Name t)) (Name t))
    then MapType cfg (Name t)
    else
      match Kind t with
      | KindSlice | KindArray =>
          match Elem t with
          | Some e => mapType cfg e +:+ "[]"
          | None => Name t
          end
      | KindMap =>
          match Key t, Value t with
          | Some k, Some v =>
              "Record<" +:+ mapType cfg k +:+ ", " +:+ mapType cfg v +:+ ">"
          | _, _ => Name t
          end
      | KindPointer =>
          match Elem t with
          | Some e => mapType cfg e +:+ " | null"
          | None => Name t
          end
      | KindInterface => "unknown"
      | _ => Name t
      end.



(** [filterTypes]. *)
Definition filterTypes (cfg : Config) (types : list Type_) : list Type_ :=
  filter (λ t, ShouldIncludeType cfg (TName t) (IsExported t) = true) types.

(** The name an embedded field refers to: the type's name, or the
    element's name when that is empty and there is an element. *)
Definition embeddedTypeName (f : Field) : string :=
  if decide (Name (FType f) = "")
  then match Elem (FType f) with
       | Some e => Name e
       | None => Name (FType f)
       end
  else Name (FType f).

(** [flattenFields].  The [seen] map is shared with the callee and
    mutated in place, so it is threaded through: the function returns
    the flattened fields together with [seen] as the call leaves it.
    [fuel] bounds the depth of the recursion into embedded types; the
    loop over [fields] is the inner [fix]. *)
Fixpoint flattenFields (fuel : nat) (typeMap : gmap string Type_)
    (fields : list Field) (seen : gset string) {struct fuel}
  : option (list Field * gset string) :=
  let descend (t : Type_) (seen1 : gset string) :=
    match fuel with
    | O => None
    | S fuel' => flattenFields fuel' typeMap (Fields t) seen1
    end in
  (fix loop (fields : list Field) (seen : gset string) {struct fields}
     : option (list Field * gset string) :=
     match fields with
     | [] => Some ([], seen)
     | f :: rest =>
         if negb (IsEmbedded f) then
           match loop rest seen with
           | Some (result, seen') => Some (f :: result, seen')
           | None => None
           end
         else
           let typeName := embeddedTypeName f in
           if decide (typeName ∈ seen) then loop rest seen
           else
             let seen1 := {[typeName]} ∪ seen in
             match typeMap !! typeName with
             | None => loop rest seen1
             | Some embeddedType =>
                 if decide (TKind embeddedType = KindStruct) then
                   match descend embeddedType seen1 with
                   | Some (embeddedFields, seen2) =>
                       match loop rest (seen2 ∖ {[typeName]}) with
                       | Some (result, seen') => Some (embeddedFields ++ result, seen')
                       | None => None
                       end
                   | None => None
                   end
                 else loop rest seen1
             end
     end) fields seen.

(** The recursion never goes deeper than the number of declared names,
    so this is the value [flattenFields] returns (see
    [flattenFields_enough] below). *)
Definition flatten (typeMap : gmap string Type_) (fields : list Field)
    (seen : gset string) : list Field :=
  match flattenFields (size typeMap) typeMap fields seen with
  | Some (result, _) => result
  | None => []
  end.

(** [flattenEmbedded]. *)
Definition flattenEmbedded (types : list Type_) (typeMap : gmap string Type_)
  : list Type_ :=
  map (λ t,
         if decide (TKind t = KindStruct)
         then {| TName := TName t; TKind := TKind t; Doc := Doc t;
                 Fields := flatten typeMap (Fields t) ∅;
                 Underlying := Underlying t; IsExported := IsExported t |}
         else t) types.

(** The type map [Generate] builds: [typeMap[t.Name] = t] for every
    type of the file, in order. *)
Definition buildTypeMap (types : list Type_) : gmap string Type_ :=
  foldl (λ typeMap t, <[TName t := t]> typeMap) ∅ types.

(** [Generate], up to the point where the template is run: the types
    handed to the template. *)
Definition Generate_types (cfg : Config) (file : File) : list Type_ :=
  let types := filterTypes cfg (Types file) in
  let typeMap := buildTypeMap (Types file) in
  flattenEmbedded types typeMap.

(** [ValidateRule]. *)
Record ValidateRule : Type := mkValidateRule {
  RuleName : string;
  RuleValue : string
}.

(** The rule one comma-separated part contributes, if any. *)
Definition parseValidatePart (part0 : string) : list ValidateRule :=
  let part := gostrings.TrimSpace part0 in
  if decide (part = "") then []
  else
    match gostrings.Index part "=" with
    | Some idx =>
        if (0 <? idx)%nat
        then [ {| RuleName := gostrings.take idx part;
                  RuleValue := gostrings.drop (idx + 1) part |} ]
        else [ {| RuleName := part; RuleValue := "" |} ]
    | None => [ {| RuleName := part; RuleValue := "" |} ]
    end.

(** [parseValidateTag]. *)
Definition parseValidateTag (field : Field) : list ValidateRule :=
  match Values (Tag field) !! "validate" with
  | None => []
  | Some tagValue =>
      if decide (tagValue = "") then []
      else concat (map parseValidatePart (gostrings.Split tagValue ","))
  end.


(** [tagOrName]. *)
Definition tagOrName (field : Field) (key : string) : string :=
  match Values (Tag field) !! key with
  | Some val =>
      match gostrings.Split val "," with
      | part0 :: _ =>
          if negb (String.eqb part0 "") && negb (String.eqb part0 "-")
          then part0 else FName field
      | [] => FName field
      end
  | None => FName field
  end.

(** [jsonName]. *)
Definition jsonName (field : Field) : string := tagOrName field "json".

(** [getTag]: a missing key reads as the empty string. *)
Definition getTag (field : Field) (key : string) : string :=
  default "" (Values (Tag field) !! key).

(** [hasTag]. *)
Definition hasTag (field : Field) (key : string) : bool :=
  bool_decide (is_Some (Values (Tag field) !! key)).

(** [isOptional]. *)
Definition isOptional (field : Field) : bool :=
  if decide (Kind (FType field) = KindPointer) then true
  else match Values (Tag field) !! "json" with
       | Some jsonTag => gostrings.Contains jsonTag "omitempty"
       | None => false
       end.

(** The three word separators of [splitWords]. *)
Definition isSeparator (r : ascii) : bool :=
  Ascii.eqb r "_" || Ascii.eqb r "-" || Ascii.eqb r " ".

(** The loop of [splitWords]: [prev] is the byte before the current one
    ([None] at index 0), [current] the word being collected. *)
Fixpoint splitWords_loop (prev : option ascii) (s : string) (current : string)
    (words : list string) : list string :=
  match s with
  | EmptyString =>
      if negb (String.eqb current "") then words ++ [current] else words
  | String r rest =>
      if isSeparator r then
        if negb (String.eqb current "")
        then splitWords_loop (Some r) rest "" (words ++ [current])
        else splitWords_loop (Some r) rest current words
      else
        let newWord :=
          gostrings.isUpper r
          && match prev with
             | Some p =>
                 gostrings.isLower p
                 || match rest with
                    | String next _ => gostrings.isLower next
                    | EmptyString => false
                    end
             | None => false
             end
          && negb (String.eqb current "") in
        if newWord
        then splitWords_loop (Some r) rest (String r "") (words ++ [current])
        else splitWords_loop (Some r) rest (current +:+ String r "") words
  end.

(** [splitWords]. *)
Definition splitWords (s : string) : list string :=
  splitWords_loop None s "" [].

(** What [pascalCase] does to one word. *)
Definition capitalize (word : string) : string :=
  match word with
  | EmptyString => EmptyString
  | String c r => String (gostrings.toUpper c) (gostrings.ToLower r)
  end.

(** [pascalCase]. *)
Definition pascalCase (s : string) : string :=
  gostrings.JoinStr (map capitalize (splitWords s)) "".

(** [camelCase]; [None] is the index-out-of-range panic of [runes[0]]
    on an empty [pascal]. *)
Definition camelCase (s : string) : option string :=
  if String.eqb s "" then Some s
  else match pascalCase s with
       | EmptyString => None
       | String c r => Some (String (gostrings.toLower c) r)
       end.

(** [snakeCase] and [kebabCase]. *)
Definition snakeCase (s : string) : string :=
  gostrings.JoinStr (map gostrings.ToLower (splitWords s)) "_".

Definition kebabCase (s : string) : string :=
  gostrings.JoinStr (map gostrings.ToLower (splitWords s)) "-".

(** The line feed. *)
Definition LF : ascii := ascii_of_nat 10.

(** [formatComment]. *)
Definition formatComment (comment prefix : string) : string :=
  if String.eqb comment "" then ""
  else
    let lines := gostrings.Split (gostrings.TrimSpace comment) LF in
    gostrings.Join (map (λ line, prefix +:+ gostrings.TrimSpace line) lines) LF.

(** [formatDocComment]. *)
Definition formatDocComment (comment : string) : string :=
  if String.eqb comment "" then ""
  else
    let lines := gostrings.Split (gostrings.TrimSpace comment) LF in
    match lines with
    | [line] => "/** " +:+ gostrings.TrimSpace line +:+ " */"
    | _ =>
        gostrings.Join
          (["/**"] ++ map (λ line, " * " +:+ gostrings.TrimSpace line) lines
             ++ [" */"]) LF
    end.

(** [containsStr], [defaultValue], [ternary] and the [notLast] helper. *)
Fixpoint containsStr (slice : list string) (s : string) : bool :=
  match slice with
  | [] => false
  | item :: rest => if String.eqb item s then true else containsStr rest s
  end.

Definition defaultValue (val def : string) : string :=
  if String.eqb val "" then def else val.

Definition ternary (condition : bool) (a b : string) : string :=
  if condition then a else b.

(** The loops of [hasValidateRule] and [getValidateValue] over the
    parsed rules. *)
Fixpoint findRule (rules : list ValidateRule) (ruleName : string)
  : option ValidateRule :=
  match rules with
  | [] => None
  | rule :: rest =>
      if String.eqb (RuleName rule) ruleName then Some rule
      else findRule rest ruleName
  end.

(** [hasValidateRule]. *)
Definition hasValidateRule (field : Field) (ruleName : string) : bool :=
  match findRule (parseValidateTag field) ruleName with
  | Some _ => true
  | None => false
  end.

(** [getValidateValue]. *)
Definition getValidateValue (field : Field) (ruleName : string) : string :=
  match findRule (parseValidateTag field) ruleName with
  | Some rule => RuleValue rule
  | None => ""
  end.

(** The numeric basic types of the Valibot helpers. *)
Definition isNumericName (typeName : string) : bool :=
  gostrings.HasPrefix typeName "int" || gostrings.HasPrefix typeName "uint"
  || gostrings.HasPrefix typeName "float" || String.eqb typeName "byte"
  || String.eqb typeName "rune".

(** [valibotElemType]; [None] is the nil reference. *)
Fixpoint valibotElemType_ref (t : TypeRef) : string :=
  let elemType (o : option TypeRef) :=
    match o with
    | Some e => valibotElemType_ref e
    | None => "v.unknown()"
    end in
  match Kind t with
  | KindBasic =>
      if String.eqb (Name t) "string" then "v.string()"
      else if String.eqb (Name t) "bool" then "v.boolean()"
      else if isNumericName (Name t) then "v.number()"
      else "v.unknown()"
  | KindNamed =>
      if String.eqb (Raw t) "time.Time" then "v.pipe(v.string(), v.isoDateTime())"
      else if String.eqb (Raw t) "uuid.UUID" then "v.pipe(v.string(), v.uuid())"
      else Name t +:+ "Schema"
  | KindSlice | KindArray => "v.array(" +:+ elemType (Elem t) +:+ ")"
  | KindMap =>
      "v.record(" +:+ elemType (Key t) +:+ ", " +:+ elemType (Value t) +:+ ")"
  | KindPointer => "v.nullable(" +:+ elemType (Elem t) +:+ ")"
  | KindInterface => "v.unknown()"
  | _ => "v.unknown()"
  end.

Definition valibotElemType (t : option TypeRef) : string :=
  match t with
  | Some r => valibotElemType_ref r
  | None => "v.unknown()"
  end.

(** The validator one rule contributes in [valibotFormField], if any. *)
Definition validatorOf (isNumeric : bool) (rule : ValidateRule) : list string :=
  if String.eqb (RuleName rule) "min" then
    [ (if isNumeric then "v.minValue(" else "v.minLength(")
        +:+ RuleValue rule +:+ ")" ]
  else if String.eqb (RuleName rule) "max" then
    [ (if isNumeric then "v.maxValue(" else "v.maxLength(")
        +:+ RuleValue rule +:+ ")" ]
  else if String.eqb (RuleName rule) "email" then ["v.email()"]
  else if String.eqb (RuleName rule) "url" then ["v.url()"]
  else if String.eqb (RuleName rule) "uuid" then ["v.uuid()"]
  else [].

(** The tail of [valibotFormField], once base type and default are set. *)
Definition valibotScalar (field : Field) (baseType defaultVal : string)
    (isNumeric : bool) : string :=
  let validators := concat (map (validatorOf isNumeric) (parseValidateTag field)) in
  let optionalExpr := "v.optional(" +:+ baseType +:+ ", " +:+ defaultVal +:+ ")" in
  match validators with
  | [] => optionalExpr
  | _ => "v.pipe(" +:+ gostrings.JoinStr (optionalExpr :: validators) ", " +:+ ")"
  end.

(** [valibotFormField]. *)
Definition valibotFormField (field : Field) : string :=
  let typeName := Name (FType field) in
  match Kind (FType field) with
  | KindBasic =>
      if String.eqb typeName "string"
      then valibotScalar field "v.string()" "''" false
      else if String.eqb typeName "bool"
      then valibotScalar field "v.boolean()" "false" false
      else if isNumericName typeName
      then valibotScalar field "v.number()" "0" true
      else valibotScalar field "v.unknown()" "undefined" false
  | KindNamed =>
      if String.eqb (Raw (FType field)) "time.Time"
      then valibotScalar field "v.string()" "''" false
      else if String.eqb (Raw (FType field)) "uuid.UUID"
      then valibotScalar field "v.string()" "''" false
      else typeName +:+ "Schema"
  | KindSlice | KindArray =>
      "v.optional(v.array(" +:+ valibotElemType (Elem (FType field)) +:+ "), [])"
  | KindMap =>
      "v.optional(v.record(" +:+ valibotElemType (Key (FType field)) +:+ ", "
        +:+ valibotElemType (Value (FType field)) +:+ "), {})"
  | KindPointer =>
      "v.nullable(" +:+ valibotElemType (Elem (FType field)) +:+ ")"
  | _ => valibotScalar field "v.unknown()" "undefined" false
  end.

End generator.

Import generator.

(** ** cmd: the command-line front end *)

Module cmd.

(** [parseCommaSeparated]. *)
Definition parseCommaSeparated (s : string) : list string :=
  concat (map (λ p0, let p := gostrings.TrimSpace p0 in
                     if negb (String.eqb p "") then [p] else [])
              (gostrings.Split s ",")).

(** The flags [run] reads when it builds the configuration. *)
Record Flags : Type := mkFlags {
  configFile : string;
  perType : bool;
  exportedOnly : bool;
  tagKey : string;
  types : string;
  exclude : string
}.

(** The flags' default values, set in [init]. *)
Definition defaultFlags : Flags :=
  {| configFile := ""; perType := false; exportedOnly := true;
     tagKey := "json"; types := ""; exclude := "" |}.

(** The overrides [run] applies after loading. *)
Definition applyFlags (flags : Flags) (cfg : Config) : Config :=
  {| TypeMappings := TypeMappings cfg;
     Opts :=
       {| PerType := if perType flags then true else PerType (Opts cfg);
          ExportedOnly := exportedOnly flags;
          TagKey := if negb (String.eqb (tagKey flags) "")
                    then tagKey flags else TagKey (Opts cfg);
          IncludeTypes := if negb (String.eqb (types flags) "")
                          then parseCommaSeparated (types flags)
                          else IncludeTypes (Opts cfg);
          ExcludeTypes := if negb (String.eqb (exclude flags) "")
                          then parseCommaSeparated (exclude flags)
                          else ExcludeTypes (Opts cfg) |} |}.

(** The configuration [run] hands to the generator: [New], merged with
    the document [loaded] from the config file when a file is named,
    then the flags. *)
Definition configure (flags : Flags) (loaded : Document) : Config :=
  let cfg := if negb (String.eqb (configFile flags) "")
             then merge New (unmarshal loaded) else New in
  applyFlags flags cfg.

End cmd.

(** * Auxiliary definitions *)

(** A configuration whose include and exclude lists both name Config,
    used to run the theorem above. *)
Definition cfg_only_Config : Config :=
  {| TypeMappings := ∅;
     Opts := {| PerType := false; ExportedOnly := true; TagKey := "json";
                IncludeTypes := ["Config"]; ExcludeTypes := ["Config"] |} |}.

(** The table of the priority example. *)
Definition decimal_mappings : gmap string string :=
  <["pkg.Decimal" := "string-a"]> (<["Decimal" := "string-b"]> ∅).

(** The shapes [typeRefFromExpr] has an arm for. *)
Definition handled (e : ast.Expr) : bool :=
  match e with
  | ast.Ident _ | ast.SelectorExpr _ _ | ast.StarExpr _ | ast.ArrayType _ _
  | ast.MapType _ _ | ast.InterfaceType | ast.ChanType _ | ast.FuncType
  | ast.Ellipsis _ => true
  | _ => false
  end.

(** The reference of the [default] arm. *)
Definition unknownRef : TypeRef :=
  {| Kind := KindBasic; Name := "unknown"; Package := "";
     Elem := None; Key := None; Value := None; Raw := "unknown" |}.

(** What happens when the loop meets a resolvable embedded record: one
    level of fuel is spent on its fields. *)
Definition descend (typeMap : gmap string Type_) (fuel : nat) (t : Type_)
    (seen : gset string)
  : option (list Field * gset string) :=
  match fuel with
  | O => None
  | S fuel' => flattenFields fuel' typeMap (Fields t) seen
  end.

(** A name is resolvable when the type map holds a struct under it. *)
Definition resolvable (typeMap : gmap string Type_) (name : string) : Prop :=
  ∃ t, typeMap !! name = Some t ∧ TKind t = KindStruct.

(** [seen'] extends [seen] by names that resolve to nothing. *)
Definition extends (typeMap : gmap string Type_) (seen seen' : gset string)
  : Prop :=
  seen ⊆ seen' ∧ ∀ name, name ∈ seen' → name ∉ seen → ¬ resolvable typeMap name.

(** Sample declarations: plain fields, fields embedding a named record,
    and two records that embed each other. *)
Definition basicRef (name : string) : TypeRef :=
  {| Kind := KindBasic; Name := name; Package := "";
     Elem := None; Key := None; Value := None; Raw := name |}.

Definition plainField (name : string) : Field :=
  {| FName := name; FType := basicRef "int";
     Tag := {| TagRaw := ""; Values := ∅ |}; FDoc := "";
     FIsExported := true; IsEmbedded := false |}.

Definition embeddedField (typeName : string) : Field :=
  {| FName := typeName; FType := basicRef typeName;
     Tag := {| TagRaw := ""; Values := ∅ |}; FDoc := "";
     FIsExported := true; IsEmbedded := true |}.

Definition structType (name : string) (exported : bool) (fields : list Field)
  : Type_ :=
  {| TName := name; TKind := KindStruct; Doc := ""; Fields := fields;
     Underlying := None; IsExported := exported |}.

Definition cyclicTypes : list Type_ :=
  [ structType "A" true [plainField "x"; embeddedField "B"];
    structType "B" true [plainField "z"; embeddedField "A"; plainField "w"] ].

Definition orderTypes : list Type_ :=
  [ structType "EmbeddedA" true [plainField "x"; plainField "y"];
    structType "EmbeddedC" true [plainField "z"] ].

(** The field list a kept struct leaves [flattenEmbedded] with. *)
Definition flattenType (typeMap : gmap string Type_) (t : Type_) : Type_ :=
  if decide (TKind t = KindStruct)
  then {| TName := TName t; TKind := TKind t; Doc := Doc t;
          Fields := flatten typeMap (Fields t) ∅;
          Underlying := Underlying t; IsExported := IsExported t |}
  else t.

(** A file whose exported record User embeds the unexported record base
    and the excluded record Audit. *)
Definition sampleFile : File :=
  {| FilePackage := "sample"; Path := "sample.go";
     Types := [ structType "base" false [plainField "ID"];
                structType "Audit" true [plainField "At"];
                structType "User" true
                  [embeddedField "base"; plainField "Name"; embeddedField "Audit"] ] |}.

Definition sampleConfig : Config :=
  {| TypeMappings := ∅;
     Opts := {| PerType := false; ExportedOnly := true; TagKey := "json";
                IncludeTypes := []; ExcludeTypes := ["Audit"] |} |}.

(** The validate mini-language as it is written: a rule is a name,
    alone or followed by [=] and a value. *)
Record WrittenRule : Type := mkWrittenRule {
  wName : string;
  wValue : option string
}.

Fixpoint all_chars (P : ascii → bool) (s : string) : bool :=
  match s with
  | EmptyString => true
  | String c r => P c && all_chars P r
  end.

(** A byte that [TrimSpace] leaves alone at either end of a string:
    ASCII and not white space. *)
Definition visible (c : ascii) : bool :=
  negb (gostrings.isSpace c) && (nat_of_ascii c <? 128)%nat.

Fixpoint lastByte (s : string) (c : ascii) : ascii :=
  match s with
  | EmptyString => c
  | String d r => lastByte r d
  end.

(** A non-empty string that starts and ends with a visible byte. *)
Definition untrimmed (s : string) : bool :=
  match s with
  | EmptyString => false
  | String c r => visible c && visible (lastByte r c)
  end.

(** Bytes of a value: anything but the comma.  Bytes of a name: neither
    comma nor equals sign. *)
Definition valueChar (c : ascii) : bool := negb (Ascii.eqb c ",").

Definition nameChar (c : ascii) : bool :=
  valueChar c && negb (Ascii.eqb c "=").

(** The text of one rule. *)
Definition render (w : WrittenRule) : string :=
  match wValue w with
  | Some v => wName w +:+ String "=" v
  | None => wName w
  end.

(** A rule as the mini-language has it: a non-empty name, no separator
    inside name or value, no white space around the rule. *)
Definition wellFormed (w : WrittenRule) : bool :=
  negb (String.eqb (wName w) "") && all_chars nameChar (wName w)
  && match wValue w with
     | Some v => all_chars valueChar v
     | None => true
     end
  && untrimmed (render w).

(** The rule a written rule stands for. *)
Definition ruleOf (w : WrittenRule) : ValidateRule :=
  {| RuleName := wName w; RuleValue := default "" (wValue w) |}.

(** A field annotated with the three rules of the example. *)
Definition validatedField : Field :=
  {| FName := "Age"; FType := basicRef "int";
     Tag := {| TagRaw := "validate:required,min=1,max=45";
               Values := {[ "validate" := "required,min=1,max=45" ]} |};
     FDoc := ""; FIsExported := true; IsEmbedded := false |}.

(** The children a reference of each kind is built with by the
    extractor: an element for pointers, slices and arrays, key and value
    for maps, nothing for named and interface references, at most an
    element for basic ones; composite references carry no name. *)
Definition absent (o : option TypeRef) : bool :=
  match o with
  | None => true
  | Some _ => false
  end.

Fixpoint childrenMatchKind (t : TypeRef) : bool :=
  let present (o : option TypeRef) :=
    match o with
    | Some e => childrenMatchKind e
    | None => false
    end in
  match Kind t with
  | KindPointer | KindSlice | KindArray =>
      String.eqb (Name t) "" && String.eqb (Package t) ""
      && present (Elem t) && absent (Key t) && absent (Value t)
  | KindMap =>
      String.eqb (Name t) "" && String.eqb (Package t) ""
      && absent (Elem t) && present (Key t) && present (Value t)
  | KindBasic =>
      String.eqb (Package t) "" && absent (Key t) && absent (Value t)
      && match Elem t with
         | Some e => childrenMatchKind e
         | None => true
         end
  | KindNamed | KindInterface =>
      absent (Elem t) && absent (Key t) && absent (Value t)
  | KindStruct | KindAlias => false
  end.

(** A field stripped of its tag, and the rule names [valibotFormField]
    turns into validators. *)
Definition untagged (f : Field) : Field :=
  {| FName := FName f; FType := FType f;
     Tag := {| TagRaw := ""; Values := ∅ |}; FDoc := FDoc f;
     FIsExported := FIsExported f; IsEmbedded := IsEmbedded f |}.

Definition validatorNames : list string :=
  ["min"; "max"; "email"; "url"; "uuid"].

(** A string with its word separators removed, and the bytes on which
    the byte-wise models of the [unicode] functions are exact. *)
Fixpoint dropSeparators (s : string) : string :=
  match s with
  | EmptyString => EmptyString
  | String c r =>
      if isSeparator c then dropSeparators r else String c (dropSeparators r)
  end.

Definition isAscii (c : ascii) : bool := (nat_of_ascii c <? 128)%nat.

(** A word as [splitWords] returns it: not empty, no separator. *)
Definition isWord (w : string) : bool :=
  negb (String.eqb w "") && all_chars (λ c, negb (isSeparator c)) w.

(** A word in lower case: a word without an upper-case letter. *)
Definition isLowerWord (w : string) : bool :=
  isWord w && all_chars (λ c, negb (gostrings.isUpper c)) w.

(** * Properties *)

(** ** Inclusion filter *)

Lemma found_in_spec (name : string) (l : list string) :
  found_in name l = true ↔ name ∈ l.
Proof.
  induction l as [|t rest IH]; simpl.
  - split; [discriminate | intros H; inversion H].
  - destruct (decide (t = name)) as [->|Hne].
    + split; [intros _; left | done].
    + rewrite IH. split; [by right |].
      intros H. inversion H; subst; [done | assumption].
Qed.

Lemma found_in_false (name : string) (l : list string) :
  found_in name l = false ↔ name ∉ l.
Proof.
  rewrite <- found_in_spec. destruct (found_in name l); split; congruence.
Qed.

(** C7: the exported-only gate rejects every unexported name; a non-empty
    include list requires membership; membership in the exclude list
    rejects whatever the other two checks say; the three checks together
    decide the answer; and with include = exclude = {User} the exported
    name User is rejected. *)
Theorem ShouldIncludeType_checks (c : Config) (name : string) :
  (ExportedOnly (Opts c) = true → ShouldIncludeType c name false = false)
  ∧ (∀ e, IncludeTypes (Opts c) ≠ [] → name ∉ IncludeTypes (Opts c) →
          ShouldIncludeType c name e = false)
  ∧ (∀ e, name ∈ ExcludeTypes (Opts c) → ShouldIncludeType c name e = false)
  ∧ (∀ e, ShouldIncludeType c name e = true ↔
          (ExportedOnly (Opts c) = true → e = true)
          ∧ (IncludeTypes (Opts c) = [] ∨ name ∈ IncludeTypes (Opts c))
          ∧ name ∉ ExcludeTypes (Opts c))
  ∧ (∀ mappings perType exportedOnly tagKey,
       ShouldIncludeType
         {| TypeMappings := mappings;
            Opts := {| PerType := perType; ExportedOnly := exportedOnly;
                       TagKey := tagKey; IncludeTypes := ["User"];
                       ExcludeTypes := ["User"] |} |} "User" true = false).
Proof.
  assert (Hchar : ∀ e, ShouldIncludeType c name e = true ↔
          (ExportedOnly (Opts c) = true → e = true)
          ∧ (IncludeTypes (Opts c) = [] ∨ name ∈ IncludeTypes (Opts c))
          ∧ name ∉ ExcludeTypes (Opts c)).
  { intros e. unfold ShouldIncludeType.
    destruct (found_in name (ExcludeTypes (Opts c))) eqn:Hex;
      [apply found_in_spec in Hex | apply found_in_false in Hex];
      (destruct (IncludeTypes (Opts c)) as [|i incl] eqn:Hincl;
       [| destruct (found_in name (i :: incl)) eqn:Hin;
          [apply found_in_spec in Hin | apply found_in_false in Hin]]);
      destruct (ExportedOnly (Opts c)), e; simpl;
      split; try discriminate; intuition (discriminate || congruence). }
  split; [|split; [|split; [|split]]].
  - intros Hexp. destruct (ShouldIncludeType c name false) eqn:E; [|done].
    apply Hchar in E as (H & _). by specialize (H Hexp).
  - intros e Hne Hnotin. destruct (ShouldIncludeType c name e) eqn:E; [|done].
    apply Hchar in E as (_ & [H|H] & _); done.
  - intros e Hin. destruct (ShouldIncludeType c name e) eqn:E; [|done].
    apply Hchar in E as (_ & _ & H); done.
  - exact Hchar.
  - intros. unfold ShouldIncludeType; simpl. by destruct exportedOnly.
Qed.

Lemma ShouldIncludeType_checks_witness :
  ShouldIncludeType cfg_only_Config "Config" false = false
  ∧ ShouldIncludeType cfg_only_Config "Other" true = false
  ∧ ShouldIncludeType cfg_only_Config "Config" true = false.
Proof.
  destruct (ShouldIncludeType_checks cfg_only_Config "Config") as (H1 & _ & H3 & _).
  destruct (ShouldIncludeType_checks cfg_only_Config "Other") as (_ & H2 & _).
  split; [|split].
  - apply H1. reflexivity.
  - apply H2; [discriminate |]. vm_compute.
    intros H. apply list_elem_of_In in H. simpl in H. destruct H as [H|[]].
    discriminate.
  - apply H3. left.
Defined.

(** ** Configuration merge *)

(** C5: after the merge, exportedOnly is the loaded document's value,
    [false] when the document leaves it out, whatever the receiver held;
    perType is true as soon as either side has it true. *)
Theorem merge_ExportedOnly_PerType (c : Config) (d : Document) (loaded : Config) :
  ExportedOnly (Opts (merge c (unmarshal d))) = default false (docExportedOnly d)
  ∧ PerType (Opts (merge c (unmarshal d)))
    = PerType (Opts c) || default false (docPerType d)
  ∧ ExportedOnly (Opts (merge c loaded)) = ExportedOnly (Opts loaded)
  ∧ PerType (Opts (merge c loaded)) = PerType (Opts c) || PerType (Opts loaded).
Proof.
  repeat split; simpl.
  - destruct (docPerType d) as [[]|], (PerType (Opts c)); reflexivity.
  - destruct (PerType (Opts loaded)), (PerType (Opts c)); reflexivity.
Qed.

(** ** Type mapping *)

(** Induction over a type reference and its optional children. *)
Lemma TypeRef_children_ind (P : TypeRef → Prop) :
  (∀ t, (∀ e, Elem t = Some e → P e) → (∀ k, Key t = Some k → P k) →
        (∀ v, Value t = Some v → P v) → P t) →
  ∀ t, P t.
Proof.
  intros H. fix IH 1. intros [kind name pkg e k v raw].
  apply H; simpl; intros x Hx.
  - destruct e as [y|]; [injection Hx as <-; apply IH | discriminate].
  - destruct k as [y|]; [injection Hx as <-; apply IH | discriminate].
  - destruct v as [y|]; [injection Hx as <-; apply IH | discriminate].
Qed.

Lemma mapType_unfold (cfg : Config) (t : TypeRef) :
  mapType cfg t =
  if negb (String.eqb (MapType cfg (Raw t)) (Raw t)) then MapType cfg (Raw t)
  else
    let fullName := Package t +:+ "." +:+ Name t in
    if negb (String.eqb (Package t) "")
         && negb (String.eqb (MapType cfg fullName) fullName)
    then MapType cfg fullName
    else if negb (String.eqb (MapType cfg (Name t)) (Name t))
    then MapType cfg (Name t)
    else
      match Kind t with
      | KindSlice | KindArray =>
          match Elem t with
          | Some e => mapType cfg e +:+ "[]"
          | None => Name t
          end
      | KindMap =>
          match Key t, Value t with
          | Some k, Some v =>
              "Record<" +:+ mapType cfg k +:+ ", " +:+ mapType cfg v +:+ ">"
          | _, _ => Name t
          end
      | KindPointer =>
          match Elem t with
          | Some e => mapType cfg e +:+ " | null"
          | None => Name t
          end
      | KindInterface => "unknown"
      | _ => Name t
      end.
Proof. destruct t; reflexivity. Qed.

Lemma eqb_differs (a b : string) : negb (String.eqb a b) = true ↔ a ≠ b.
Proof.
  destruct (String.eqb_spec a b); simpl; split; congruence.
Qed.

Lemma eqb_same (a b : string) : negb (String.eqb a b) = false ↔ a = b.
Proof.
  destruct (String.eqb_spec a b); simpl; split; congruence.
Qed.

(** C2: the raw spelling is looked up first and wins when it maps to
    something else; then qualifier-dot-name, tried only when the
    qualifier is not empty; then the bare name.  With the table
    pkg.Decimal -> string-a, Decimal -> string-b the reference
    pkg.Decimal resolves to string-a. *)
Theorem mapType_priority (cfg : Config) (t : TypeRef) :
  let fullName := Package t +:+ "." +:+ Name t in
  (MapType cfg (Raw t) ≠ Raw t → mapType cfg t = MapType cfg (Raw t))
  ∧ (MapType cfg (Raw t) = Raw t → Package t ≠ "" →
     MapType cfg fullName ≠ fullName → mapType cfg t = MapType cfg fullName)
  ∧ (MapType cfg (Raw t) = Raw t →
     Package t = "" ∨ MapType cfg fullName = fullName →
     MapType cfg (Name t) ≠ Name t → mapType cfg t = MapType cfg (Name t))
  ∧ (∀ kind elem key value opts,
       mapType {| TypeMappings := decimal_mappings; Opts := opts |}
         {| Kind := kind; Name := "Decimal"; Package := "pkg"; Elem := elem;
            Key := key; Value := value; Raw := "pkg.Decimal" |} = "string-a").
Proof.
  intros fullName. split; [|split; [|split]].
  - intros H. rewrite mapType_unfold.
    apply eqb_differs in H. by rewrite H.
  - intros Hraw Hpkg Hfull. rewrite mapType_unfold.
    apply eqb_same in Hraw. apply eqb_differs in Hpkg, Hfull.
    rewrite Hraw. cbv zeta. fold fullName. by rewrite Hpkg, Hfull.
  - intros Hraw Hfull Hname. rewrite mapType_unfold.
    apply eqb_same in Hraw. apply eqb_differs in Hname.
    rewrite Hraw. cbv zeta. fold fullName.
    replace (negb (String.eqb (Package t) "")
             && negb (String.eqb (MapType cfg fullName) fullName)) with false.
    + by rewrite Hname.
    + symmetry. destruct Hfull as [H|H].
      * apply eqb_same in H. by rewrite H.
      * apply eqb_same in H. rewrite H. apply andb_false_r.
  - intros. rewrite mapType_unfold. reflexivity.
Qed.

Lemma mapType_priority_witness :
  mapType {| TypeMappings := decimal_mappings; Opts := DefaultOptions |}
    {| Kind := KindNamed; Name := "Decimal"; Package := "pkg"; Elem := None;
       Key := None; Value := None; Raw := "pkg.Decimal" |} = "string-a"
  ∧ mapType {| TypeMappings := decimal_mappings; Opts := DefaultOptions |}
      {| Kind := KindNamed; Name := "Decimal"; Package := "pkg"; Elem := None;
         Key := None; Value := None; Raw := "other" |} = "string-a"
  ∧ mapType {| TypeMappings := decimal_mappings; Opts := DefaultOptions |}
      {| Kind := KindNamed; Name := "Decimal"; Package := "big"; Elem := None;
         Key := None; Value := None; Raw := "big.Decimal" |} = "string-b".
Proof.
  pose proof (mapType_priority
                {| TypeMappings := decimal_mappings; Opts := DefaultOptions |}
                {| Kind := KindNamed; Name := "Decimal"; Package := "pkg";
                   Elem := None; Key := None; Value := None;
                   Raw := "pkg.Decimal" |}) as (H1 & _).
  pose proof (mapType_priority
                {| TypeMappings := decimal_mappings; Opts := DefaultOptions |}
                {| Kind := KindNamed; Name := "Decimal"; Package := "pkg";
                   Elem := None; Key := None; Value := None;
                   Raw := "other" |}) as (_ & H2 & _).
  pose proof (mapType_priority
                {| TypeMappings := decimal_mappings; Opts := DefaultOptions |}
                {| Kind := KindNamed; Name := "Decimal"; Package := "big";
                   Elem := None; Key := None; Value := None;
                   Raw := "big.Decimal" |}) as (_ & _ & H3 & _).
  split; [|split].
  - rewrite H1; [reflexivity | vm_compute; discriminate].
  - rewrite H2; [reflexivity | reflexivity | discriminate
                | vm_compute; discriminate].
  - rewrite H3; [reflexivity | reflexivity | right; reflexivity
                | vm_compute; discriminate].
Defined.

(** Two tables that [MapType] cannot tell apart give the same mapping
    of every reference. *)
Lemma mapType_ext (cfg cfg' : Config) :
  (∀ x, MapType cfg x = MapType cfg' x) → ∀ t, mapType cfg t = mapType cfg' t.
Proof.
  intros Hext t. induction t as [t IHe IHk IHv] using TypeRef_children_ind.
  rewrite !mapType_unfold. cbv zeta. rewrite !Hext.
  destruct (Elem t) as [e|], (Key t) as [k|], (Value t) as [v|];
    repeat match goal with
      | H : ∀ x, Some ?y = Some x → _ |- _ => specialize (H y eq_refl); rewrite H
      end; reflexivity.
Qed.

Lemma MapType_delete_identity (cfg : Config) (k x : string) :
  TypeMappings cfg !! k = Some k →
  MapType cfg x
  = MapType {| TypeMappings := delete k (TypeMappings cfg); Opts := Opts cfg |} x.
Proof.
  intros Hk. unfold MapType; simpl.
  destruct (decide (k = x)) as [->|Hne].
  - by rewrite Hk, lookup_delete_eq.
  - by rewrite lookup_delete_ne.
Qed.

(** C6: an entry that maps a key to itself counts as no entry: removing
    it from the table changes the mapping of no reference, so the lookup
    goes on to the next level as if the entry were absent.  A slice of
    the basic type string, under a table that maps string to string,
    resolves by the structural rule to string[]. *)
Theorem mapType_identity_entry_ignored (cfg : Config) (k : string) :
  (TypeMappings cfg !! k = Some k →
   ∀ t, mapType cfg t
        = mapType {| TypeMappings := delete k (TypeMappings cfg);
                     Opts := Opts cfg |} t)
  ∧ (∀ opts,
       mapType {| TypeMappings := {[ "string" := "string" ]}; Opts := opts |}
         {| Kind := KindSlice; Name := ""; Package := "";
            Elem := Some {| Kind := KindBasic; Name := "string"; Package := "";
                            Elem := None; Key := None; Value := None;
                            Raw := "string" |};
            Key := None; Value := None; Raw := "[]string" |} = "string[]").
Proof.
  split.
  - intros Hk t. apply mapType_ext. intros x. by apply MapType_delete_identity.
  - intros opts. reflexivity.
Qed.

Lemma mapType_identity_entry_ignored_witness :
  mapType {| TypeMappings := {[ "string" := "string" ]}; Opts := DefaultOptions |}
    (parser.typeRefFromExpr (ast.ArrayType None (ast.Ident "string")))
  = mapType {| TypeMappings := delete "string" {[ "string" := "string" ]};
               Opts := DefaultOptions |}
      (parser.typeRefFromExpr (ast.ArrayType None (ast.Ident "string"))).
Proof.
  pose proof (mapType_identity_entry_ignored
                {| TypeMappings := {[ "string" := "string" ]};
                   Opts := DefaultOptions |} "string") as (H & _).
  apply H. reflexivity.
Defined.

(** ** Extractor *)

(** An entry of a field list with no bound name yields exactly one
    field, marked embedded and named after the converted type. *)
Lemma extractFields_embedded (IsExported : string → bool)
    (Lookup : string → string → option string) (f : ast.Field) :
  ast.Names f = [] →
  ∃ fld, parser.extractFields IsExported Lookup [f] = [fld]
         ∧ IsEmbedded fld = true
         ∧ FName fld = Name (parser.typeRefFromExpr (ast.Type_ f)).
Proof.
  intros Hnames. unfold parser.extractFields, parser.extractField; simpl.
  rewrite Hnames. eexists. split; [reflexivity|]. split; reflexivity.
Qed.

(** C3, at the embedded pointer: the entry [*T] with no bound name is
    extracted as an embedded field whose name is empty, not T, because
    the pointer reference built by [typeRefFromExpr] has no name. *)
Theorem extractFields_embedded_pointer (IsExported : string → bool)
    (Lookup : string → string → option string)
    (tag doc : option string) :
  map (λ fld, (FName fld, IsEmbedded fld))
    (parser.extractFields IsExported Lookup
       [ {| ast.Names := []; ast.Type_ := ast.StarExpr (ast.Ident "T");
            ast.Tag := tag; ast.Doc := doc |} ])
  = [("", true)].
Proof. reflexivity. Qed.

(** C4, as the code has it: the conversion is defined on every
    expression; a channel becomes a basic reference named chan that
    keeps the converted element, a function type a basic reference named
    func, and every shape without an arm of its own the basic reference
    named unknown. *)
Theorem typeRefFromExpr_fallbacks :
  (∀ e, ∃ r, parser.typeRefFromExpr e = r)
  ∧ (∀ V, parser.typeRefFromExpr (ast.ChanType V)
          = {| Kind := KindBasic; Name := "chan"; Package := "";
               Elem := Some (parser.typeRefFromExpr V);
               Key := None; Value := None;
               Raw := "chan " +:+ Raw (parser.typeRefFromExpr V) |})
  ∧ parser.typeRefFromExpr ast.FuncType
    = {| Kind := KindBasic; Name := "func"; Package := "";
         Elem := None; Key := None; Value := None; Raw := "func" |}
  ∧ (∀ e, handled e = false → parser.typeRefFromExpr e = unknownRef).
Proof.
  split; [|split; [|split]].
  - intros e. by eexists.
  - reflexivity.
  - reflexivity.
  - intros e He. destruct e; try discriminate; reflexivity.
Qed.

Lemma typeRefFromExpr_fallbacks_witness :
  parser.typeRefFromExpr (ast.ParenExpr (ast.Ident "T")) = unknownRef.
Proof.
  pose proof typeRefFromExpr_fallbacks as (_ & _ & _ & H).
  apply H. reflexivity.
Defined.

(** C4 as stated fails on a function type: its reference is named func. *)
Lemma typeRefFromExpr_func_not_unknown :
  Name (parser.typeRefFromExpr ast.FuncType) ≠ "unknown".
Proof. discriminate. Qed.

(** ** Flattening *)

Section Flatten.

Variable typeMap : gmap string Type_.

Implicit Types (fields rest : list Field) (seen : gset string) (fuel : nat).

Local Arguments flattenFields : simpl never.
Local Arguments descend : simpl nomatch.

Lemma flattenFields_nil fuel seen :
  flattenFields fuel typeMap [] seen = Some ([], seen).
Proof. destruct fuel; reflexivity. Qed.

Lemma flattenFields_cons fuel f rest seen :
  flattenFields fuel typeMap (f :: rest) seen =
  if negb (IsEmbedded f) then
    match flattenFields fuel typeMap rest seen with
    | Some (result, seen') => Some (f :: result, seen')
    | None => None
    end
  else
    let typeName := embeddedTypeName f in
    if decide (typeName ∈ seen) then flattenFields fuel typeMap rest seen
    else
      let seen1 := {[typeName]} ∪ seen in
      match typeMap !! typeName with
      | None => flattenFields fuel typeMap rest seen1
      | Some embeddedType =>
          if decide (TKind embeddedType = KindStruct) then
            match descend typeMap fuel embeddedType seen1 with
            | Some (embeddedFields, seen2) =>
                match flattenFields fuel typeMap rest (seen2 ∖ {[typeName]}) with
                | Some (result, seen') => Some (embeddedFields ++ result, seen')
                | None => None
                end
            | None => None
            end
          else flattenFields fuel typeMap rest seen1
      end.
Proof. destruct fuel; reflexivity. Qed.

Lemma extends_refl seen : extends typeMap seen seen.
Proof. split; [done | intros n H1 H2; done]. Qed.

Lemma extends_trans s1 s2 s3 :
  extends typeMap s1 s2 → extends typeMap s2 s3 → extends typeMap s1 s3.
Proof.
  intros [Ha Hb] [Hc Hd]. split; [set_solver|].
  intros n Hn3 Hn1. destruct (decide (n ∈ s2)); eauto.
Qed.

(** More fuel never changes a result. *)
Lemma flattenFields_mono fuel :
  ∀ fuel' fields seen out,
    fuel ≤ fuel' →
    flattenFields fuel typeMap fields seen = Some out →
    flattenFields fuel' typeMap fields seen = Some out.
Proof.
  induction fuel as [|n IHn]; intros fuel' fields; revert fuel';
    induction fields as [|f rest IHrest]; intros fuel' seen out Hle;
    rewrite ?flattenFields_nil; try done.
  - rewrite !flattenFields_cons.
    destruct (IsEmbedded f) eqn:?; simpl.
    + destruct (decide (embeddedTypeName f ∈ seen)); [by apply IHrest|].
      destruct (typeMap !! embeddedTypeName f) as [et|] eqn:?; [|by apply IHrest].
      destruct (decide (TKind et = KindStruct)); [simpl; done | by apply IHrest].
    + destruct (flattenFields 0 typeMap rest seen) as [[r s]|] eqn:E; [|done].
      intros ?. by rewrite (IHrest _ _ _ Hle E).
  - rewrite !flattenFields_cons.
    destruct (IsEmbedded f) eqn:?; simpl.
    + destruct (decide (embeddedTypeName f ∈ seen)); [by apply IHrest|].
      destruct (typeMap !! embeddedTypeName f) as [et|] eqn:?; [|by apply IHrest].
      destruct (decide (TKind et = KindStruct)); [| by apply IHrest].
      destruct fuel' as [|m]; [lia|]. simpl.
      destruct (flattenFields n typeMap (Fields et) _) as [[ef s2]|] eqn:E1; [|done].
      rewrite (IHn m _ _ _ ltac:(lia) E1).
      destruct (flattenFields (S n) typeMap rest _) as [[r s]|] eqn:E2; [|done].
      intros ?. by rewrite (IHrest _ _ _ Hle E2).
    + destruct (flattenFields (S n) typeMap rest seen) as [[r s]|] eqn:E; [|done].
      intros ?. by rewrite (IHrest _ _ _ Hle E).
Qed.

Lemma extends_insert_dead seen name :
  ¬ resolvable typeMap name → extends typeMap seen ({[name]} ∪ seen).
Proof.
  intros Hdead. split; [set_solver|].
  intros n Hn Hnot. assert (n = name) as -> by set_solver. done.
Qed.

Lemma extends_after_descend seen seen2 name :
  name ∉ seen → extends typeMap ({[name]} ∪ seen) seen2 →
  extends typeMap seen (seen2 ∖ {[name]}).
Proof.
  intros Hnot [Hsub Hdead]. split; [set_solver|].
  intros n Hn Hn'. apply Hdead; set_solver.
Qed.

Lemma extends_union s1 s2 name :
  extends typeMap s1 s2 → extends typeMap ({[name]} ∪ s1) ({[name]} ∪ s2).
Proof.
  intros [Hsub Hdead]. split; [set_solver|].
  intros n Hn Hn'. apply Hdead; set_solver.
Qed.

Lemma extends_difference s1 s2 name :
  extends typeMap s1 s2 → extends typeMap (s1 ∖ {[name]}) (s2 ∖ {[name]}).
Proof.
  intros [Hsub Hdead]. split; [set_solver|].
  intros n Hn Hn'. apply Hdead; set_solver.
Qed.

Lemma extends_absorb s1 s2 name :
  extends typeMap s1 s2 → name ∈ s2 → extends typeMap ({[name]} ∪ s1) s2.
Proof.
  intros [Hsub Hdead] Hin. split; [set_solver|].
  intros n Hn Hn'. apply Hdead; set_solver.
Qed.

Lemma not_resolvable_None name :
  typeMap !! name = None → ¬ resolvable typeMap name.
Proof. intros H (t & Ht & _). congruence. Qed.

Lemma not_resolvable_kind name t :
  typeMap !! name = Some t → TKind t ≠ KindStruct → ¬ resolvable typeMap name.
Proof. intros H Hk (t' & Ht & Hk'). congruence. Qed.

(** The names still open to the recursion: declared and not yet seen. *)
Lemma open_names_le seen seen' :
  seen ⊆ seen' → size (dom typeMap ∖ seen') ≤ size (dom typeMap ∖ seen).
Proof. intros H. apply subseteq_size. set_solver. Qed.

Lemma open_names_lt seen name t :
  typeMap !! name = Some t → name ∉ seen →
  size (dom typeMap ∖ ({[name]} ∪ seen)) < size (dom typeMap ∖ seen).
Proof.
  intros Ht Hnot. apply subset_size.
  assert (name ∈ dom typeMap) by (apply elem_of_dom; eauto).
  set_solver.
Qed.

(** Termination: fuel covering the open names always yields a result,
    and the call leaves [seen] extended by unresolvable names only. *)
Lemma flattenFields_enough fuel :
  ∀ fields seen,
    size (dom typeMap ∖ seen) ≤ fuel →
    ∃ result seen',
      flattenFields fuel typeMap fields seen = Some (result, seen')
      ∧ extends typeMap seen seen'.
Proof.
  induction fuel as [fuel IHfuel] using lt_wf_ind.
  induction fields as [|f rest IHrest]; intros seen Hsize.
  - rewrite flattenFields_nil. eauto using extends_refl.
  - rewrite flattenFields_cons.
    destruct (IsEmbedded f) eqn:Hemb; simpl.
    + destruct (decide (embeddedTypeName f ∈ seen)) as [Hin|Hnot];
        [by apply IHrest|].
      set (name := embeddedTypeName f) in *.
      assert (Hrest : ∀ seen1, extends typeMap seen seen1 →
                ∃ result seen',
                  flattenFields fuel typeMap rest seen1 = Some (result, seen')
                  ∧ extends typeMap seen seen').
      { intros seen1 Hext.
        destruct (IHrest seen1) as (r & s' & Hr & Hext').
        - pose proof (open_names_le seen seen1 (proj1 Hext)). lia.
        - exists r, s'. eauto using extends_trans. }
      destruct (typeMap !! name) as [et|] eqn:Hlook.
      * destruct (decide (TKind et = KindStruct)) as [Hk|Hk].
        -- pose proof (open_names_lt seen name et Hlook Hnot) as Hlt.
           destruct fuel as [|n]; [lia|]. simpl.
           destruct (IHfuel n ltac:(lia) (Fields et) ({[name]} ∪ seen))
             as (ef & s2 & Hef & Hext2); [lia|].
           rewrite Hef.
           destruct (Hrest (s2 ∖ {[name]})) as (r & s' & Hr & Hext');
             [by apply extends_after_descend|].
           rewrite Hr. eauto.
        -- apply Hrest, extends_insert_dead. by eapply not_resolvable_kind.
      * apply Hrest, extends_insert_dead. by apply not_resolvable_None.
    + destruct (IHrest seen Hsize) as (r & s' & Hr & Hext).
      rewrite Hr. eauto.
Qed.

(** Names that resolve to nothing make no difference to the result. *)
Lemma flattenFields_extends fuel :
  ∀ fields s1 s2 result s1',
    extends typeMap s1 s2 →
    flattenFields fuel typeMap fields s1 = Some (result, s1') →
    ∃ s2', flattenFields fuel typeMap fields s2 = Some (result, s2')
           ∧ extends typeMap s1' s2'.
Proof.
  induction fuel as [fuel IHfuel] using lt_wf_ind.
  induction fields as [|f rest IHrest]; intros s1 s2 result s1' Hext.
  - rewrite !flattenFields_nil. intros [= <- <-]. eauto.
  - rewrite !flattenFields_cons.
    destruct (IsEmbedded f) eqn:Hemb; simpl.
    + set (name := embeddedTypeName f) in *.
      destruct (decide (name ∈ s1)) as [Hin1|Hnot1].
      { destruct (decide (name ∈ s2)) as [Hin2|Hnot2];
          [by apply IHrest | destruct Hext; set_solver]. }
      destruct (decide (name ∈ s2)) as [Hin2|Hnot2].
      { assert (Hdead : ¬ resolvable typeMap name) by (by apply Hext).
        assert (Hext1 : extends typeMap ({[name]} ∪ s1) s2)
          by (by apply extends_absorb).
        destruct (typeMap !! name) as [et|] eqn:Hlook; [|by apply IHrest].
        destruct (decide (TKind et = KindStruct)) as [Hk|Hk]; [|by apply IHrest].
        exfalso. apply Hdead. by exists et. }
      pose proof (extends_union s1 s2 name Hext) as Hext1.
      destruct (typeMap !! name) as [et|] eqn:Hlook; [|by apply IHrest].
      destruct (decide (TKind et = KindStruct)) as [Hk|Hk]; [|by apply IHrest].
      destruct fuel as [|n]; [done|]. simpl.
      destruct (flattenFields n typeMap (Fields et) ({[name]} ∪ s1))
        as [[ef t1]|] eqn:Hef; [|done].
      destruct (IHfuel n ltac:(lia) _ _ _ _ _ Hext1 Hef) as (t2 & Hef2 & Hext2).
      rewrite Hef2.
      destruct (flattenFields (S n) typeMap rest (t1 ∖ {[name]}))
        as [[r u1]|] eqn:Hr; [|done].
      intros [= <- <-].
      destruct (IHrest _ _ _ _ (extends_difference _ _ name Hext2) Hr)
        as (u2 & Hr2 & Hext3).
      rewrite Hr2. eauto.
    + destruct (flattenFields fuel typeMap rest s1) as [[r u1]|] eqn:Hr; [|done].
      intros [= <- <-].
      destruct (IHrest _ _ _ _ Hext Hr) as (u2 & Hr2 & Hext2).
      rewrite Hr2. eauto.
Qed.

(** The loop over a concatenation is the loop over its first part
    followed, on the [seen] it leaves, by the loop over the second. *)
Lemma flattenFields_app fuel :
  ∀ fields1 fields2 seen,
    flattenFields fuel typeMap (fields1 ++ fields2) seen =
    match flattenFields fuel typeMap fields1 seen with
    | Some (result1, seen1) =>
        match flattenFields fuel typeMap fields2 seen1 with
        | Some (result2, seen2) => Some (result1 ++ result2, seen2)
        | None => None
        end
    | None => None
    end.
Proof.
  induction fields1 as [|f rest IHrest]; intros fields2 seen; simpl.
  - rewrite flattenFields_nil.
    by destruct (flattenFields fuel typeMap fields2 seen) as [[? ?]|].
  - rewrite !flattenFields_cons.
    destruct (IsEmbedded f) eqn:Hemb; simpl.
    + destruct (decide (embeddedTypeName f ∈ seen)); [apply IHrest|].
      destruct (typeMap !! embeddedTypeName f) as [et|]; [|apply IHrest].
      destruct (decide (TKind et = KindStruct)); [|apply IHrest].
      destruct (descend typeMap fuel et _) as [[ef s2]|]; [|done].
      rewrite IHrest.
      destruct (flattenFields fuel typeMap rest _) as [[r1 s1]|]; [|done].
      destruct (flattenFields fuel typeMap fields2 s1) as [[r2 s3]|]; [|done].
      by rewrite app_assoc.
    + rewrite IHrest.
      destruct (flattenFields fuel typeMap rest seen) as [[r1 s1]|]; [|done].
      by destruct (flattenFields fuel typeMap fields2 s1) as [[r2 s3]|].
Qed.

End Flatten.

(** *** The flattened fields *)

Local Arguments flattenFields : simpl never.

Lemma flatten_run (typeMap : gmap string Type_) (fields : list Field)
    (seen : gset string) (fuel : nat) :
  size typeMap ≤ fuel →
  ∃ seen', flattenFields fuel typeMap fields seen
           = Some (flatten typeMap fields seen, seen')
           ∧ extends typeMap seen seen'.
Proof.
  intros Hfuel.
  assert (Hopen : size (dom typeMap ∖ seen) ≤ size typeMap).
  { rewrite <- size_dom. apply subseteq_size. set_solver. }
  destruct (flattenFields_enough typeMap (size typeMap) fields seen Hopen)
    as (r & s' & Hr & Hext).
  exists s'. unfold flatten. rewrite Hr. split; [|done].
  by apply (flattenFields_mono typeMap (size typeMap)).
Qed.

(** C1: whatever the field list and the type map, cycles included,
    [flattenFields] started on an empty [seen] returns: there is one
    field sequence that every call with fuel for the declared names
    yields, so a second call on a fresh [seen] gives the same fields. *)
Theorem flattenFields_terminates (typeMap : gmap string Type_)
    (fields : list Field) :
  ∃ result seen',
    ∀ fuel, size typeMap ≤ fuel →
            flattenFields fuel typeMap fields ∅ = Some (result, seen').
Proof.
  destruct (flatten_run typeMap fields ∅ (size typeMap)) as (s' & Hr & _); [done|].
  exists (flatten typeMap fields ∅), s'. intros fuel Hfuel.
  by apply (flattenFields_mono typeMap (size typeMap)).
Qed.

Lemma flattenFields_terminates_witness :
  ∃ result seen',
    flattenFields 2 (buildTypeMap cyclicTypes) [embeddedField "A"] ∅
    = Some (result, seen')
    ∧ flattenFields 5 (buildTypeMap cyclicTypes) [embeddedField "A"] ∅
      = Some (result, seen').
Proof.
  destruct (flattenFields_terminates (buildTypeMap cyclicTypes)
              [embeddedField "A"]) as (r & s' & H).
  exists r, s'. split; apply H; vm_compute; lia.
Defined.

Lemma flatten_nil (typeMap : gmap string Type_) seen :
  flatten typeMap [] seen = [].
Proof. unfold flatten. by rewrite flattenFields_nil. Qed.

Lemma flatten_app (typeMap : gmap string Type_) fields1 fields2 seen :
  flatten typeMap (fields1 ++ fields2) seen
  = flatten typeMap fields1 seen ++ flatten typeMap fields2 seen.
Proof.
  destruct (flatten_run typeMap fields1 seen (size typeMap)) as (s1 & H1 & Hext1);
    [done|].
  destruct (flatten_run typeMap fields2 seen (size typeMap)) as (s2 & H2 & _);
    [done|].
  destruct (flattenFields_extends typeMap _ _ _ _ _ _ Hext1 H2) as (s3 & H3 & _).
  unfold flatten at 1. by rewrite flattenFields_app, H1, H3.
Qed.

Lemma flatten_plain (typeMap : gmap string Type_) f seen :
  IsEmbedded f = false → flatten typeMap [f] seen = [f].
Proof.
  intros Hemb. unfold flatten.
  rewrite flattenFields_cons, Hemb. simpl. by rewrite flattenFields_nil.
Qed.

Lemma flatten_embedded (typeMap : gmap string Type_) f seen t :
  IsEmbedded f = true → embeddedTypeName f ∉ seen →
  typeMap !! embeddedTypeName f = Some t → TKind t = KindStruct →
  flatten typeMap [f] seen
  = flatten typeMap (Fields t) ({[embeddedTypeName f]} ∪ seen).
Proof.
  intros Hemb Hnot Hlook Hkind.
  pose proof (open_names_lt typeMap seen _ t Hlook Hnot) as Hlt.
  assert (Hopen : size (dom typeMap ∖ seen) ≤ size typeMap).
  { rewrite <- size_dom. apply subseteq_size. set_solver. }
  unfold flatten at 1. rewrite flattenFields_cons, Hemb. simpl.
  rewrite decide_False, Hlook, decide_True by done.
  destruct (size typeMap) as [|n] eqn:Hsize; [lia|]. simpl.
  destruct (flattenFields_enough typeMap n (Fields t)
              ({[embeddedTypeName f]} ∪ seen)) as (ef & s2 & Hef & _); [lia|].
  rewrite Hef. simpl. rewrite ?flattenFields_nil. simpl. rewrite app_nil_r.
  unfold flatten. rewrite Hsize.
  by rewrite (flattenFields_mono typeMap n (S n) _ _ _ ltac:(lia) Hef).
Qed.

Lemma flatten_dropped (typeMap : gmap string Type_) f seen :
  IsEmbedded f = true →
  embeddedTypeName f ∈ seen ∨ ¬ resolvable typeMap (embeddedTypeName f) →
  flatten typeMap [f] seen = [].
Proof.
  intros Hemb Hdrop. unfold flatten. rewrite flattenFields_cons, Hemb. simpl.
  destruct (decide (embeddedTypeName f ∈ seen)) as [Hin|Hnot];
    [by rewrite flattenFields_nil|].
  destruct Hdrop as [Hin|Hdead]; [done|].
  destruct (typeMap !! embeddedTypeName f) as [et|] eqn:Hlook;
    [|by rewrite flattenFields_nil].
  destruct (decide (TKind et = KindStruct)) as [Hk|Hk];
    [|by rewrite flattenFields_nil].
  exfalso. apply Hdead. by exists et.
Qed.

(** C8: flattening keeps the order of the field list.  Each slot of the
    list contributes, at its own place, what it flattens to on its own:
    a plain field itself, an embedded field the flattened fields of the
    record it names.  So [EmbeddedA, plainB, EmbeddedC], with A holding
    [x, y] and C holding [z], flattens to [x, y, plainB, z]. *)
Theorem flatten_preserves_order (typeMap : gmap string Type_) :
  (∀ pre f post seen,
     flatten typeMap (pre ++ f :: post) seen
     = flatten typeMap pre seen ++ flatten typeMap [f] seen
         ++ flatten typeMap post seen)
  ∧ (∀ f seen, IsEmbedded f = false → flatten typeMap [f] seen = [f])
  ∧ (∀ f seen t,
       IsEmbedded f = true → embeddedTypeName f ∉ seen →
       typeMap !! embeddedTypeName f = Some t → TKind t = KindStruct →
       flatten typeMap [f] seen
       = flatten typeMap (Fields t) ({[embeddedTypeName f]} ∪ seen))
  ∧ (∀ embeddedA plainB embeddedC x y z tA tC,
       IsEmbedded embeddedA = true → IsEmbedded embeddedC = true →
       IsEmbedded plainB = false →
       IsEmbedded x = false → IsEmbedded y = false → IsEmbedded z = false →
       typeMap !! embeddedTypeName embeddedA = Some tA →
       TKind tA = KindStruct → Fields tA = [x; y] →
       typeMap !! embeddedTypeName embeddedC = Some tC →
       TKind tC = KindStruct → Fields tC = [z] →
       flatten typeMap [embeddedA; plainB; embeddedC] ∅ = [x; y; plainB; z]).
Proof.
  split; [|split; [|split]].
  - intros pre f post seen.
    change (f :: post) with ([f] ++ post). by rewrite !flatten_app.
  - apply flatten_plain.
  - apply flatten_embedded.
  - intros eA b eC x y z tA tC HeA HeC Hb Hx Hy Hz HA HkA HfA HC HkC HfC.
    change [eA; b; eC] with ([eA] ++ [b] ++ [eC]).
    rewrite !flatten_app.
    rewrite (flatten_embedded _ eA ∅ tA), (flatten_embedded _ eC ∅ tC)
      by (done || set_solver).
    rewrite HfA, HfC. change [x; y] with ([x] ++ [y]).
    rewrite flatten_app. by rewrite !flatten_plain.
Qed.

Lemma flatten_preserves_order_witness :
  flatten (buildTypeMap orderTypes)
    [embeddedField "EmbeddedA"; plainField "plainB"; embeddedField "EmbeddedC"] ∅
  = [plainField "x"; plainField "y"; plainField "plainB"; plainField "z"].
Proof.
  pose proof (flatten_preserves_order (buildTypeMap orderTypes))
    as (_ & _ & _ & H).
  apply (H (embeddedField "EmbeddedA") (plainField "plainB")
           (embeddedField "EmbeddedC") (plainField "x") (plainField "y")
           (plainField "z")
           (structType "EmbeddedA" true [plainField "x"; plainField "y"])
           (structType "EmbeddedC" true [plainField "z"]));
    reflexivity.
Defined.

(** *** The type map of [Generate] *)

Lemma buildTypeMap_foldl_other (types : list Type_) (m : gmap string Type_)
    (name : string) :
  name ∉ map TName types →
  foldl (λ typeMap t, <[TName t := t]> typeMap) m types !! name = m !! name.
Proof.
  revert m. induction types as [|t rest IH]; intros m Hnot; simpl; [done|].
  simpl in Hnot. apply not_elem_of_cons in Hnot as [Hne Hrest].
  rewrite IH by done. by rewrite lookup_insert_ne.
Qed.

Lemma buildTypeMap_foldl_some (types : list Type_) (m : gmap string Type_)
    (name : string) :
  is_Some (m !! name) ∨ name ∈ map TName types →
  is_Some (foldl (λ typeMap t, <[TName t := t]> typeMap) m types !! name).
Proof.
  revert m. induction types as [|t rest IH]; intros m H; simpl.
  - destruct H as [H|H]; [done | inversion H].
  - apply IH. destruct (decide (TName t = name)) as [<-|Hne].
    + left. rewrite lookup_insert_eq. eauto.
    + destruct H as [H|H].
      * left. by rewrite lookup_insert_ne.
      * right. simpl in H. apply elem_of_cons in H as [H|H]; [congruence|done].
Qed.

Lemma buildTypeMap_last (before after : list Type_) (R : Type_) :
  TName R ∉ map TName after →
  buildTypeMap (before ++ R :: after) !! TName R = Some R.
Proof.
  intros Hnot. unfold buildTypeMap. rewrite foldl_app. simpl.
  rewrite buildTypeMap_foldl_other by done. apply lookup_insert_eq.
Qed.

Lemma Generate_types_unfold (cfg : Config) (file : File) :
  Generate_types cfg file
  = map (flattenType (buildTypeMap (Types file))) (filterTypes cfg (Types file)).
Proof. reflexivity. Qed.

(** C10: the type map handed to the flattening holds every declaration
    of the file, kept by the filter or not.  A struct T that passes the
    filter and embeds the record R of the file comes out with R's
    flattened fields in the place of the embedded field, whether or not
    R itself passes the filter. *)
Theorem Generate_types_embeds_filtered_out (cfg : Config) (file : File) :
  (∀ decl, decl ∈ Types file →
           is_Some (buildTypeMap (Types file) !! TName decl))
  ∧ (∀ T R before after pre f post,
       T ∈ Types file →
       ShouldIncludeType cfg (TName T) (IsExported T) = true →
       TKind T = KindStruct → Fields T = pre ++ f :: post →
       IsEmbedded f = true → embeddedTypeName f = TName R →
       Types file = before ++ R :: after → TName R ∉ map TName after →
       TKind R = KindStruct →
       ∃ T', T' ∈ Generate_types cfg file
             ∧ TName T' = TName T
             ∧ Fields T'
               = flatten (buildTypeMap (Types file)) pre ∅
                   ++ flatten (buildTypeMap (Types file)) (Fields R) {[TName R]}
                   ++ flatten (buildTypeMap (Types file)) post ∅).
Proof.
  split.
  - intros decl Hin. apply buildTypeMap_foldl_some. right.
    apply list_elem_of_fmap. eauto.
  - intros T R before after pre f post HT Hkeep HkT HfT Hemb Hname Hfile Hlast HkR.
    exists (flattenType (buildTypeMap (Types file)) T).
    split; [|split].
    + rewrite Generate_types_unfold. apply list_elem_of_fmap.
      exists T. split; [done|]. apply list_elem_of_filter. done.
    + unfold flattenType. by rewrite decide_True.
    + unfold flattenType. rewrite decide_True by done. simpl.
      rewrite HfT. change (f :: post) with ([f] ++ post).
      rewrite !flatten_app.
      rewrite (flatten_embedded _ f ∅ R); rewrite ?Hname; try done.
      * by rewrite union_empty_r_L.
      * rewrite Hfile. by apply buildTypeMap_last.
Qed.

Lemma Generate_types_embeds_filtered_out_witness :
  ShouldIncludeType sampleConfig "base" false = false
  ∧ ShouldIncludeType sampleConfig "Audit" true = false
  ∧ map (λ t, (TName t, map FName (Fields t)))
      (Generate_types sampleConfig sampleFile)
    = [("User", ["ID"; "Name"; "At"])]
  ∧ ∃ T', T' ∈ Generate_types sampleConfig sampleFile
          ∧ TName T' = "User"
          ∧ Fields T'
            = flatten (buildTypeMap (Types sampleFile)) [] ∅
                ++ flatten (buildTypeMap (Types sampleFile))
                     [plainField "ID"] {["base"]}
                ++ flatten (buildTypeMap (Types sampleFile))
                     [plainField "Name"; embeddedField "Audit"] ∅.
Proof.
  split; [reflexivity|]. split; [reflexivity|]. split; [reflexivity|].
  pose proof (Generate_types_embeds_filtered_out sampleConfig sampleFile)
    as (_ & H).
  apply (H (structType "User" true
              [embeddedField "base"; plainField "Name"; embeddedField "Audit"])
           (structType "base" false [plainField "ID"])
           []
           [ structType "Audit" true [plainField "At"];
             structType "User" true
               [embeddedField "base"; plainField "Name"; embeddedField "Audit"] ]
           [] (embeddedField "base")
           [plainField "Name"; embeddedField "Audit"]);
    try reflexivity.
  - simpl. apply list_elem_of_In. simpl. auto.
  - simpl. intros Hin. apply list_elem_of_In in Hin. simpl in Hin.
    destruct Hin as [Hin|[Hin|[]]]; discriminate.
Defined.

(** ** Validate rules *)

Section Strings.

Import gostrings.

Lemma all_chars_app P (a b : string) :
  all_chars P (a +:+ b) = all_chars P a && all_chars P b.
Proof.
  induction a as [|c a IH]; simpl; [done|]. by rewrite IH, andb_assoc.
Qed.

Lemma all_chars_weaken (P Q : ascii → bool) (s : string) :
  (∀ c, P c = true → Q c = true) → all_chars P s = true → all_chars Q s = true.
Proof.
  intros HPQ. induction s as [|c r IH]; simpl; [done|].
  intros [Hc Hr]%andb_true_iff. rewrite (HPQ _ Hc). by apply IH.
Qed.

Lemma Split_none (sep : ascii) (s : string) :
  all_chars (λ c, negb (Ascii.eqb c sep)) s = true → Split s sep = [s].
Proof.
  induction s as [|c r IH]; simpl; [done|].
  intros [Hc Hr]%andb_true_iff. apply negb_true_iff in Hc.
  by rewrite Hc, IH.
Qed.

Lemma Split_first (sep : ascii) (p r : string) :
  all_chars (λ c, negb (Ascii.eqb c sep)) p = true →
  Split (p +:+ String sep r) sep = p :: Split r sep.
Proof.
  induction p as [|c p IH]; simpl.
  - intros _. by rewrite Ascii.eqb_refl.
  - intros [Hc Hp]%andb_true_iff. apply negb_true_iff in Hc.
    by rewrite Hc, IH.
Qed.

Lemma Split_Join (sep : ascii) (parts : list string) :
  parts ≠ [] →
  Forall (λ p, all_chars (λ c, negb (Ascii.eqb c sep)) p = true) parts →
  Split (Join parts sep) sep = parts.
Proof.
  induction parts as [|p [|q ps] IH]; intros Hne Hall; [done| |].
  - simpl. apply Split_none. by inversion Hall.
  - inversion Hall as [|? ? Hp Hrest]; subst.
    change (Join (p :: q :: ps) sep) with (p +:+ String sep (Join (q :: ps) sep)).
    rewrite Split_first by done. f_equal. by apply IH.
Qed.

Lemma TrimRightSpace_id (s : string) (c : ascii) :
  isSpace (lastByte s c) = false → TrimRightSpace (String c s) = String c s.
Proof.
  revert c. induction s as [|d r IH]; intros c Hlast.
  - simpl in *. by rewrite Hlast.
  - change (TrimRightSpace (String c (String d r)))
      with (match TrimRightSpace (String d r) with
            | EmptyString => if isSpace c then EmptyString else String c EmptyString
            | r' => String c r'
            end).
    by rewrite IH.
Qed.

Lemma TrimSpace_id (s : string) : untrimmed s = true → TrimSpace s = s.
Proof.
  destruct s as [|c r]; [done|]. simpl.
  intros [[Hc _]%andb_true_iff [Hl _]%andb_true_iff]%andb_true_iff.
  apply negb_true_iff in Hc, Hl.
  unfold TrimSpace. simpl. rewrite Hc. by apply TrimRightSpace_id.
Qed.

Lemma Index_none (sep : ascii) (s : string) :
  all_chars (λ c, negb (Ascii.eqb c sep)) s = true → Index s sep = None.
Proof.
  induction s as [|c r IH]; simpl; [done|].
  intros [Hc Hr]%andb_true_iff. apply negb_true_iff in Hc.
  by rewrite Hc, IH.
Qed.

Lemma Index_first (sep : ascii) (p r : string) :
  all_chars (λ c, negb (Ascii.eqb c sep)) p = true →
  Index (p +:+ String sep r) sep = Some (String.length p).
Proof.
  induction p as [|c p IH]; simpl.
  - intros _. by rewrite Ascii.eqb_refl.
  - intros [Hc Hp]%andb_true_iff. apply negb_true_iff in Hc.
    by rewrite Hc, IH.
Qed.

Lemma take_length_app (p r : string) : take (String.length p) (p +:+ r) = p.
Proof.
  induction p as [|c p IH]; simpl; [by destruct r | by rewrite IH].
Qed.

Lemma drop_length_app (p r : string) (c : ascii) :
  drop (String.length p + 1) (p +:+ String c r) = r.
Proof. induction p as [|d p IH]; simpl; done. Qed.

End Strings.

Lemma nameChar_valueChar c : nameChar c = true → valueChar c = true.
Proof. unfold nameChar. by intros [H _]%andb_true_iff. Qed.

Lemma nameChar_not_equals c : nameChar c = true → negb (Ascii.eqb c "=") = true.
Proof. unfold nameChar. by intros [_ H]%andb_true_iff. Qed.

Lemma wellFormed_parts (w : WrittenRule) :
  wellFormed w = true →
  wName w ≠ "" ∧ all_chars nameChar (wName w) = true
  ∧ match wValue w with
    | Some v => all_chars valueChar v = true
    | None => True
    end
  ∧ untrimmed (render w) = true.
Proof.
  unfold wellFormed.
  intros [[[Hne Hn]%andb_true_iff Hv]%andb_true_iff Hu]%andb_true_iff.
  apply eqb_differs in Hne. repeat split; try done.
  by destruct (wValue w).
Qed.

(** A well-formed rule is written without a comma. *)
Lemma render_valueChars (w : WrittenRule) :
  wellFormed w = true → all_chars valueChar (render w) = true.
Proof.
  intros (_ & Hn & Hv & _)%wellFormed_parts. unfold render.
  pose proof (all_chars_weaken _ _ _ nameChar_valueChar Hn) as Hn'.
  destruct (wValue w) as [v|]; [|done].
  rewrite all_chars_app. simpl. by rewrite Hn', Hv.
Qed.

Lemma render_not_empty (w : WrittenRule) :
  wellFormed w = true → render w ≠ "".
Proof.
  intros (_ & _ & _ & Hu)%wellFormed_parts. by destruct (render w).
Qed.

(** One written rule parses to the rule it stands for. *)
Lemma parseValidatePart_render (w : WrittenRule) :
  wellFormed w = true → parseValidatePart (render w) = [ruleOf w].
Proof.
  intros Hw. unfold parseValidatePart.
  pose proof (render_not_empty w Hw) as Hrender.
  apply wellFormed_parts in Hw as (Hne & Hn & Hv & Hu).
  rewrite TrimSpace_id by done.
  rewrite decide_False by done.
  pose proof (all_chars_weaken _ _ _ nameChar_not_equals Hn) as Hn'.
  unfold render, ruleOf. destruct (wValue w) as [v|]; simpl.
  - rewrite Index_first by done.
    assert ((0 <? String.length (wName w)) = true) as ->.
    { destruct (wName w); [done | reflexivity]. }
    by rewrite take_length_app, drop_length_app.
  - by rewrite Index_none.
Qed.

(** C9: a validate annotation written as well-formed rules separated by
    commas parses to those rules, in the order written, each name with
    its value, the empty string when the rule has no equals sign;
    required,min=1,max=45 parses to (required, empty), (min, 1),
    (max, 45). *)
Theorem parseValidateTag_ordered (field : Field) :
  (∀ written : list WrittenRule,
     Forall (λ w, wellFormed w = true) written →
     Values (Tag field) !! "validate"
     = Some (gostrings.Join (map render written) ",") →
     parseValidateTag field = map ruleOf written)
  ∧ (Values (Tag field) !! "validate" = Some "required,min=1,max=45" →
     parseValidateTag field
     = [ {| RuleName := "required"; RuleValue := "" |};
         {| RuleName := "min"; RuleValue := "1" |};
         {| RuleName := "max"; RuleValue := "45" |} ]).
Proof.
  split.
  - intros written Hwf Htag. unfold parseValidateTag. rewrite Htag.
    destruct written as [|w ws]; [reflexivity|].
    assert (Hparts : Forall (λ p, all_chars valueChar p = true)
                       (map render (w :: ws))).
    { apply Forall_fmap. eapply Forall_impl; [exact Hwf|].
      intros x Hx. simpl. by apply render_valueChars. }
    rewrite decide_False.
    + rewrite Split_Join by done.
      clear Htag Hparts. induction Hwf as [|x xs Hx Hxs IH]; [done|].
      simpl. rewrite parseValidatePart_render by done. simpl. by rewrite IH.
    + inversion Hwf as [|? ? Hw Hws]; subst.
      pose proof (render_not_empty w Hw) as Hne.
      simpl. destruct (render w) as [|c r]; [done|].
      by destruct (map render ws).
  - intros Htag. unfold parseValidateTag. rewrite Htag. reflexivity.
Qed.

Lemma parseValidateTag_ordered_witness :
  parseValidateTag validatedField
  = map ruleOf [ {| wName := "required"; wValue := None |};
                 {| wName := "min"; wValue := Some "1" |};
                 {| wName := "max"; wValue := Some "45" |} ].
Proof.
  pose proof (parseValidateTag_ordered validatedField) as (H & _).
  apply H.
  - repeat constructor.
  - reflexivity.
Defined.

(** * Further properties of the configuration and the front end *)

(** X1: after a merge every key reads the loaded document's target when
    the document has the key, and the receiver's target otherwise; so
    [MapType] on the merged table prefers the document and falls back
    to the receiver, then to the input itself. *)
Theorem merge_TypeMappings_lookup (c loaded : Config) (k : string) :
  TypeMappings (merge c loaded) !! k
  = match TypeMappings loaded !! k with
    | Some v => Some v
    | None => TypeMappings c !! k
    end
  ∧ MapType (merge c loaded) k
    = match TypeMappings loaded !! k with
      | Some v => v
      | None => MapType c k
      end.
Proof.
  assert (H : TypeMappings (merge c loaded) !! k
              = match TypeMappings loaded !! k with
                | Some v => Some v
                | None => TypeMappings c !! k
                end).
  { simpl. rewrite lookup_union. by destruct (TypeMappings loaded !! k),
      (TypeMappings c !! k). }
  split; [done|]. unfold MapType. rewrite H.
  by destruct (TypeMappings loaded !! k).
Qed.

(** X2: a merge keeps the receiver's tag key when the document has none
    or an empty one, and replaces the include and exclude lists by the
    document's, which are empty when the document leaves them out. *)
Theorem merge_TagKey_lists (c : Config) (d : Document) :
  TagKey (Opts (merge c (unmarshal d)))
  = match docTagKey d with
    | Some key => if decide (key = "") then TagKey (Opts c) else key
    | None => TagKey (Opts c)
    end
  ∧ IncludeTypes (Opts (merge c (unmarshal d))) = default [] (docIncludeTypes d)
  ∧ ExcludeTypes (Opts (merge c (unmarshal d))) = default [] (docExcludeTypes d).
Proof.
  split; [|done]. simpl. by destruct (docTagKey d).
Qed.

(** X3: merging the same loaded configuration a second time changes
    nothing. *)
Theorem merge_idempotent (c loaded : Config) :
  merge (merge c loaded) loaded = merge c loaded.
Proof.
  unfold merge; simpl. f_equal.
  - by rewrite (assoc (∪)), (idemp (∪)).
  - f_equal.
    + by destruct (PerType (Opts loaded)).
    + by destruct (decide (TagKey (Opts loaded) = "")).
Qed.

(** X4: whatever the config file says, the configuration [run] builds
    has the exported-only option of the [-exported] flag, and the tag
    key of the [-tag] flag unless that flag is empty; so with the flags'
    defaults a file can change neither. *)
Theorem configure_flags_win (flags : cmd.Flags) (loaded : Document) :
  ExportedOnly (Opts (cmd.configure flags loaded)) = cmd.exportedOnly flags
  ∧ (cmd.tagKey flags ≠ "" →
     TagKey (Opts (cmd.configure flags loaded)) = cmd.tagKey flags)
  ∧ (cmd.exportedOnly flags = true → cmd.tagKey flags = "json" →
     ExportedOnly (Opts (cmd.configure flags loaded)) = true
     ∧ TagKey (Opts (cmd.configure flags loaded)) = "json").
Proof.
  split; [done|].
  assert (H : cmd.tagKey flags ≠ "" →
              TagKey (Opts (cmd.configure flags loaded)) = cmd.tagKey flags).
  { intros Hne. simpl. apply eqb_differs in Hne. by rewrite Hne. }
  split; [done|]. intros Hexp Htag. split; [done|].
  rewrite H; [done|]. by rewrite Htag.
Qed.

Lemma configure_flags_win_witness :
  ExportedOnly
    (Opts (cmd.configure
             {| cmd.configFile := "gogen.yaml"; cmd.perType := false;
                cmd.exportedOnly := true; cmd.tagKey := "json";
                cmd.types := ""; cmd.exclude := "" |}
             {| docTypeMappings := None; docPerType := None;
                docExportedOnly := Some false; docTagKey := Some "yaml";
                docIncludeTypes := None; docExcludeTypes := None |})) = true
  ∧ TagKey
      (Opts (cmd.configure
               {| cmd.configFile := "gogen.yaml"; cmd.perType := false;
                  cmd.exportedOnly := true; cmd.tagKey := "json";
                  cmd.types := ""; cmd.exclude := "" |}
               {| docTypeMappings := None; docPerType := None;
                  docExportedOnly := Some false; docTagKey := Some "yaml";
                  docIncludeTypes := None; docExcludeTypes := None |})) = "json".
Proof.
  pose proof (configure_flags_win
                {| cmd.configFile := "gogen.yaml"; cmd.perType := false;
                   cmd.exportedOnly := true; cmd.tagKey := "json";
                   cmd.types := ""; cmd.exclude := "" |}
                {| docTypeMappings := None; docPerType := None;
                   docExportedOnly := Some false; docTagKey := Some "yaml";
                   docIncludeTypes := None; docExcludeTypes := None |})
    as (_ & _ & H).
  apply H; reflexivity.
Defined.

(** X5: the include list of the built configuration is the [-types]
    flag, split, when the flag is given; otherwise the file's list when
    a file is named; otherwise empty.  The flags never touch the type
    mappings: they are the defaults overlaid with the file's. *)
Theorem configure_lists_and_mappings (flags : cmd.Flags) (loaded : Document)
    (k : string) :
  IncludeTypes (Opts (cmd.configure flags loaded))
  = (if decide (cmd.types flags = "")
     then if decide (cmd.configFile flags = "") then []
          else default [] (docIncludeTypes loaded)
     else cmd.parseCommaSeparated (cmd.types flags))
  ∧ TypeMappings (cmd.configure flags loaded) !! k
    = (if decide (cmd.configFile flags = "") then DefaultTypeMappings !! k
       else match default ∅ (docTypeMappings loaded) !! k with
            | Some v => Some v
            | None => DefaultTypeMappings !! k
            end).
Proof.
  unfold cmd.configure, cmd.applyFlags; simpl. split.
  - destruct (decide (cmd.types flags = "")) as [->|Hne]; simpl.
    + destruct (decide (cmd.configFile flags = "")) as [->|Hc]; simpl; [done|].
      apply eqb_differs in Hc. by rewrite Hc.
    + apply eqb_differs in Hne. by rewrite Hne.
  - destruct (decide (cmd.configFile flags = "")) as [->|Hc]; simpl; [done|].
    apply eqb_differs in Hc. rewrite Hc. simpl. rewrite lookup_union.
    by destruct (default ∅ (docTypeMappings loaded) !! k),
      (DefaultTypeMappings !! k).
Qed.

Lemma parseCommaSeparated_no_empty_parts (parts : list string) :
  "" ∉ concat (map (λ p0, let p := gostrings.TrimSpace p0 in
                          if negb (String.eqb p "") then [p] else []) parts).
Proof.
  induction parts as [|p ps IH]; simpl; [by intros H; inversion H|].
  intros [H|H]%elem_of_app; [|done].
  destruct (String.eqb_spec (gostrings.TrimSpace p) ""); simpl in H.
  - inversion H.
  - apply list_elem_of_singleton in H. congruence.
Qed.

(** X6: [parseCommaSeparated] never yields an empty name, and it reads
    back a list of names written with commas between them, when each
    name has no comma and no white space at its ends. *)
Theorem parseCommaSeparated_round_trip (names : list string) :
  Forall (λ n, untrimmed n && all_chars valueChar n = true) names →
  cmd.parseCommaSeparated (gostrings.Join names ",") = names
  ∧ ∀ s, "" ∉ cmd.parseCommaSeparated s.
Proof.
  intros Hnames. split; [|intros s; apply parseCommaSeparated_no_empty_parts].
  unfold cmd.parseCommaSeparated.
  destruct names as [|n ns]; [reflexivity|].
  rewrite Split_Join; [|done|].
  - induction Hnames as [|x xs Hx Hxs IH]; [done|].
    apply andb_true_iff in Hx as [Hu Hc]. simpl.
    rewrite TrimSpace_id by done.
    assert (x ≠ "") as Hne by (by destruct x).
    apply eqb_differs in Hne. rewrite Hne. simpl. by rewrite IH.
  - eapply Forall_impl; [exact Hnames|]. simpl.
    by intros x [_ Hc]%andb_true_iff.
Qed.

Lemma parseCommaSeparated_round_trip_witness :
  cmd.parseCommaSeparated (gostrings.Join ["User"; "Order Item"; "Product"] ",")
  = ["User"; "Order Item"; "Product"].
Proof.
  apply (parseCommaSeparated_round_trip ["User"; "Order Item"; "Product"]).
  repeat constructor.
Defined.

(** X7: under the default configuration a name passes the filter
    exactly when it is exported, so [filterTypes] keeps the exported
    declarations, in order. *)
Theorem filterTypes_default (types : list Type_) :
  (∀ name e, ShouldIncludeType New name e = e)
  ∧ filterTypes New types = filter (λ t, IsExported t = true) types.
Proof.
  assert (H : ∀ name e, ShouldIncludeType New name e = e)
    by (by intros name []).
  split; [done|]. unfold filterTypes.
  induction types as [|t rest IH]; [done|].
  rewrite !filter_cons, IH, H. done.
Qed.

(** * Further properties of the flattening *)

Section FlattenResult.

Variable typeMap : gmap string Type_.

(** Where a flattened field can come from. *)
Let fromStruct (f : Field) : Prop :=
  ∃ name t, typeMap !! name = Some t ∧ TKind t = KindStruct ∧ f ∈ Fields t.

Lemma flattenFields_result fuel :
  ∀ fields seen result seen',
    flattenFields fuel typeMap fields seen = Some (result, seen') →
    ∀ f, f ∈ result → IsEmbedded f = false ∧ (f ∈ fields ∨ fromStruct f).
Proof.
  induction fuel as [fuel IHfuel] using lt_wf_ind.
  induction fields as [|f0 rest IHrest]; intros seen result seen'.
  - rewrite flattenFields_nil. intros [= <- <-] f Hf. inversion Hf.
  - assert (Hlift : ∀ s r s1,
              flattenFields fuel typeMap rest s = Some (r, s1) →
              ∀ f, f ∈ r →
                   IsEmbedded f = false ∧ (f ∈ f0 :: rest ∨ fromStruct f)).
    { intros s r s1 Hr f Hf.
      destruct (IHrest _ _ _ Hr f Hf) as [Hp [Hin|Hfrom]]; split; try done.
      - left. by right.
      - by right. }
    rewrite flattenFields_cons.
    destruct (IsEmbedded f0) eqn:Hemb; simpl.
    + destruct (decide (embeddedTypeName f0 ∈ seen)) as [Hseen|Hseen];
        [apply Hlift|].
      destruct (typeMap !! embeddedTypeName f0) as [et|] eqn:Hlook;
        [|apply Hlift].
      destruct (decide (TKind et = KindStruct)) as [Hk|Hk]; [|apply Hlift].
      destruct fuel as [|n]; [done|]. simpl.
      destruct (flattenFields n typeMap (Fields et) _) as [[ef s2]|] eqn:Hef;
        [|done].
      destruct (flattenFields (S n) typeMap rest _) as [[r s3]|] eqn:Hr; [|done].
      intros [= <- <-] f [Hf|Hf]%elem_of_app.
      * destruct (IHfuel n ltac:(lia) _ _ _ _ Hef f Hf) as [Hp [Hin|Hfrom]];
          split; try done; right; [|done].
        by exists (embeddedTypeName f0), et.
      * by eapply Hlift.
    + destruct (flattenFields fuel typeMap rest seen) as [[r s3]|] eqn:Hr; [|done].
      intros [= <- <-] f [->|Hf]%elem_of_cons.
      * split; [done|]. left. by left.
      * by eapply Hlift.
Qed.

End FlattenResult.

Lemma flatten_plain_list (typeMap : gmap string Type_) fields seen :
  Forall (λ f, IsEmbedded f = false) fields → flatten typeMap fields seen = fields.
Proof.
  induction 1 as [|f rest Hf Hrest IH]; [apply flatten_nil|].
  change (f :: rest) with ([f] ++ rest).
  by rewrite flatten_app, flatten_plain, IH.
Qed.

Lemma flatten_result_plain (typeMap : gmap string Type_) fields seen :
  Forall (λ f, IsEmbedded f = false) (flatten typeMap fields seen).
Proof.
  destruct (flatten_run typeMap fields seen (size typeMap)) as (s' & Hr & _);
    [done|].
  apply Forall_forall. intros f Hf.
  by destruct (flattenFields_result typeMap _ _ _ _ _ Hr f Hf).
Qed.

(** X8: every field that comes out of the flattening is a plain field,
    and it is a field of the input list or of a struct held by the type
    map: no embedded field survives, and nothing is made up. *)
Theorem flatten_fields_plain_and_declared (typeMap : gmap string Type_)
    (fields : list Field) (seen : gset string) (f : Field) :
  f ∈ flatten typeMap fields seen →
  IsEmbedded f = false
  ∧ (f ∈ fields
     ∨ ∃ name t, typeMap !! name = Some t ∧ TKind t = KindStruct
                 ∧ f ∈ Fields t).
Proof.
  intros Hf.
  destruct (flatten_run typeMap fields seen (size typeMap)) as (s' & Hr & _);
    [done|].
  exact (flattenFields_result typeMap _ _ _ _ _ Hr f Hf).
Qed.

Lemma flatten_fields_plain_and_declared_witness :
  IsEmbedded (plainField "z") = false
  ∧ (plainField "z" ∈ [embeddedField "A"]
     ∨ ∃ name t, buildTypeMap cyclicTypes !! name = Some t
                 ∧ TKind t = KindStruct ∧ plainField "z" ∈ Fields t).
Proof.
  apply (flatten_fields_plain_and_declared (buildTypeMap cyclicTypes)
           [embeddedField "A"] ∅ (plainField "z")).
  vm_compute. apply list_elem_of_In. simpl. auto.
Defined.

(** X9: a field list without embedded fields flattens to itself, and
    flattening a flattened list again, on any [seen], changes nothing. *)
Theorem flatten_idempotent (typeMap : gmap string Type_)
    (fields : list Field) (seen seen' : gset string) :
  (Forall (λ f, IsEmbedded f = false) fields →
   flatten typeMap fields seen = fields)
  ∧ flatten typeMap (flatten typeMap fields seen) seen'
    = flatten typeMap fields seen.
Proof.
  split; [apply flatten_plain_list|].
  apply flatten_plain_list, flatten_result_plain.
Qed.

Lemma flatten_idempotent_witness :
  flatten (buildTypeMap cyclicTypes) [plainField "a"; plainField "b"] ∅
  = [plainField "a"; plainField "b"].
Proof.
  pose proof (flatten_idempotent (buildTypeMap cyclicTypes)
                [plainField "a"; plainField "b"] ∅ ∅) as (H & _).
  apply H. repeat constructor.
Defined.

(** X10: the flattening of a declaration starts with an empty [seen],
    which does not hold the declaration's own name.  A struct whose one
    embedded field names the struct itself therefore gets its plain
    fields twice: once through the embedded slot, once directly. *)
Theorem flatten_self_embedding_duplicates (typeMap : gmap string Type_)
    (T : Type_) (pre post : list Field) (f : Field) :
  typeMap !! embeddedTypeName f = Some T → TKind T = KindStruct →
  IsEmbedded f = true → Fields T = pre ++ f :: post →
  Forall (λ x, IsEmbedded x = false) pre →
  Forall (λ x, IsEmbedded x = false) post →
  flatten typeMap (Fields T) ∅ = pre ++ (pre ++ post) ++ post.
Proof.
  intros Hlook Hkind Hemb Hfields Hpre Hpost.
  assert (Hsplit : ∀ seen,
            flatten typeMap (Fields T) seen
            = pre ++ flatten typeMap [f] seen ++ post).
  { intros seen. rewrite Hfields. change (f :: post) with ([f] ++ post).
    rewrite !flatten_app.
    by rewrite (flatten_plain_list _ pre), (flatten_plain_list _ post). }
  rewrite Hsplit.
  rewrite (flatten_embedded _ f ∅ T) by (done || set_solver).
  rewrite Hsplit.
  rewrite flatten_dropped by (done || left; set_solver).
  done.
Qed.

Lemma flatten_self_embedding_duplicates_witness :
  flatten
    (buildTypeMap
       [structType "Node" true
          [plainField "Val"; embeddedField "Node"; plainField "Next"]])
    [plainField "Val"; embeddedField "Node"; plainField "Next"] ∅
  = [plainField "Val"] ++ ([plainField "Val"] ++ [plainField "Next"])
      ++ [plainField "Next"].
Proof.
  apply (flatten_self_embedding_duplicates
           (buildTypeMap
              [structType "Node" true
                 [plainField "Val"; embeddedField "Node"; plainField "Next"]])
           (structType "Node" true
              [plainField "Val"; embeddedField "Node"; plainField "Next"])
           [plainField "Val"] [plainField "Next"] (embeddedField "Node"));
    try reflexivity; repeat constructor.
Defined.

(** X11: an embedded field whose name is already on the path, is not
    declared in the type map, or is declared as something other than a
    struct, leaves no trace: the list flattens as if the field were not
    there. *)
Theorem flatten_unresolved_dropped (typeMap : gmap string Type_)
    (pre post : list Field) (f : Field) (seen : gset string) :
  IsEmbedded f = true →
  embeddedTypeName f ∈ seen
  ∨ typeMap !! embeddedTypeName f = None
  ∨ (∃ t, typeMap !! embeddedTypeName f = Some t ∧ TKind t ≠ KindStruct) →
  flatten typeMap (pre ++ f :: post) seen
  = flatten typeMap pre seen ++ flatten typeMap post seen.
Proof.
  intros Hemb Hdrop. change (f :: post) with ([f] ++ post).
  rewrite !flatten_app, flatten_dropped; [done..|].
  destruct Hdrop as [H|[H|(t & H & Hk)]]; [by left| |].
  - right. by apply not_resolvable_None.
  - right. by eapply not_resolvable_kind.
Qed.

Lemma flatten_unresolved_dropped_witness :
  flatten (buildTypeMap orderTypes)
    ([plainField "a"] ++ embeddedField "Mutex" :: [plainField "b"]) ∅
  = flatten (buildTypeMap orderTypes) [plainField "a"] ∅
      ++ flatten (buildTypeMap orderTypes) [plainField "b"] ∅.
Proof.
  apply (flatten_unresolved_dropped (buildTypeMap orderTypes)
           [plainField "a"] [plainField "b"] (embeddedField "Mutex") ∅).
  - reflexivity.
  - right. left. reflexivity.
Defined.

(** X12: the type map holds exactly the declared names, and under a
    name declared several times it holds the last declaration. *)
Theorem buildTypeMap_names_last_wins (types : list Type_) :
  (∀ name, is_Some (buildTypeMap types !! name) ↔ name ∈ map TName types)
  ∧ (∀ before A middle B after,
       types = before ++ A :: middle ++ B :: after →
       TName A = TName B → TName B ∉ map TName after →
       buildTypeMap types !! TName A = Some B).
Proof.
  split.
  - intros name. split.
    + intros Hsome. destruct (decide (name ∈ map TName types)) as [|Hnot];
        [done|]. unfold buildTypeMap in Hsome.
      rewrite buildTypeMap_foldl_other in Hsome by done.
      rewrite lookup_empty in Hsome. by destruct Hsome.
    + intros Hin. apply buildTypeMap_foldl_some. by right.
  - intros before A middle B after -> Hname Hlast.
    rewrite Hname.
    replace (before ++ A :: middle ++ B :: after)
      with ((before ++ A :: middle) ++ B :: after)
      by (by rewrite <- app_assoc).
    by apply buildTypeMap_last.
Qed.

Lemma buildTypeMap_names_last_wins_witness :
  buildTypeMap
    ([] ++ structType "A" true [plainField "old"]
        :: [structType "B" true []]
        ++ structType "A" true [plainField "new"] :: [])
  !! "A" = Some (structType "A" true [plainField "new"]).
Proof.
  pose proof (buildTypeMap_names_last_wins
                ([] ++ structType "A" true [plainField "old"]
                    :: [structType "B" true []]
                    ++ structType "A" true [plainField "new"] :: []))
    as (_ & H).
  apply (H [] (structType "A" true [plainField "old"])
           [structType "B" true []]
           (structType "A" true [plainField "new"]) []);
    try reflexivity.
  simpl. intros Hin. inversion Hin.
Defined.

(** X13: [Generate] hands the template the declarations that pass the
    filter, in their order, with names and kinds unchanged; a
    declaration that is not a struct is passed on as it is, and no
    struct is left with an embedded field. *)
Theorem Generate_types_shape (cfg : Config) (file : File) :
  map TName (Generate_types cfg file)
  = map TName (filterTypes cfg (Types file))
  ∧ map TKind (Generate_types cfg file)
    = map TKind (filterTypes cfg (Types file))
  ∧ (∀ t, t ∈ Generate_types cfg file → TKind t ≠ KindStruct →
          t ∈ Types file)
  ∧ (∀ t f, t ∈ Generate_types cfg file → TKind t = KindStruct →
            f ∈ Fields t → IsEmbedded f = false).
Proof.
  rewrite Generate_types_unfold.
  set (typeMap := buildTypeMap (Types file)).
  assert (Hname : ∀ t, TName (flattenType typeMap t) = TName t).
  { intros t. unfold flattenType. by destruct (decide _). }
  assert (Hkind : ∀ t, TKind (flattenType typeMap t) = TKind t).
  { intros t. unfold flattenType. by destruct (decide _). }
  split; [|split; [|split]].
  - rewrite List.map_map. by apply List.map_ext.
  - rewrite List.map_map. by apply List.map_ext.
  - intros t (t0 & -> & Hin)%list_elem_of_fmap Hk.
    apply list_elem_of_filter in Hin as [_ Hin].
    rewrite Hkind in Hk. unfold flattenType. by rewrite decide_False.
  - intros t f (t0 & -> & Hin)%list_elem_of_fmap Hk Hf.
    rewrite Hkind in Hk. unfold flattenType in Hf.
    rewrite decide_True in Hf by done. simpl in Hf.
    pose proof (flatten_result_plain typeMap (Fields t0) ∅) as Hplain.
    rewrite Forall_forall in Hplain. by apply Hplain.
Qed.

Lemma Generate_types_shape_witness :
  Forall (λ f, IsEmbedded f = false)
    (Fields (flattenType (buildTypeMap (Types sampleFile))
               (structType "User" true
                  [embeddedField "base"; plainField "Name";
                   embeddedField "Audit"]))).
Proof.
  apply Forall_forall. intros f Hf.
  pose proof (Generate_types_shape sampleConfig sampleFile) as (_ & _ & _ & H).
  apply (H (flattenType (buildTypeMap (Types sampleFile))
              (structType "User" true
                 [embeddedField "base"; plainField "Name";
                  embeddedField "Audit"])) f).
  - vm_compute. apply list_elem_of_In. simpl. auto.
  - reflexivity.
  - exact Hf.
Defined.

(** * Further properties of the extractor and the type mapping *)

(** X14: every reference the extractor builds has the children its kind
    calls for: pointers, slices and arrays an element, maps a key and a
    value, and no name of their own; the kinds struct and alias are
    never produced. *)
Theorem typeRefFromExpr_children (e : ast.Expr) :
  childrenMatchKind (parser.typeRefFromExpr e) = true.
Proof.
  induction e; simpl; rewrite ?IHe, ?IHe1, ?IHe2; try reflexivity.
  destruct Len; simpl; by rewrite IHe.
Qed.

(** X15: how conversion and mapping compose.  When the table has no
    entry for the empty name and none for the spelling of the composite
    type itself, a pointer maps to its element's mapping followed by
    [ | null], a slice, an array and a variadic parameter to the
    element's mapping followed by [[]], a map to [Record<key, value>]. *)
Theorem mapType_of_composite_expr (cfg : Config) :
  MapType cfg "" = "" →
  let conv := parser.typeRefFromExpr in
  (∀ X, MapType cfg (Raw (conv (ast.StarExpr X))) = Raw (conv (ast.StarExpr X)) →
        mapType cfg (conv (ast.StarExpr X)) = mapType cfg (conv X) +:+ " | null")
  ∧ (∀ Len Elt,
       MapType cfg (Raw (conv (ast.ArrayType Len Elt)))
       = Raw (conv (ast.ArrayType Len Elt)) →
       mapType cfg (conv (ast.ArrayType Len Elt)) = mapType cfg (conv Elt) +:+ "[]")
  ∧ (∀ Elt,
       MapType cfg (Raw (conv (ast.Ellipsis Elt))) = Raw (conv (ast.Ellipsis Elt)) →
       mapType cfg (conv (ast.Ellipsis Elt)) = mapType cfg (conv Elt) +:+ "[]")
  ∧ (∀ K V,
       MapType cfg (Raw (conv (ast.MapType K V))) = Raw (conv (ast.MapType K V)) →
       mapType cfg (conv (ast.MapType K V))
       = "Record<" +:+ mapType cfg (conv K) +:+ ", " +:+ mapType cfg (conv V)
           +:+ ">").
Proof.
  intros Hempty conv. apply eqb_same in Hempty.
  split; [|split; [|split]].
  - intros X Hraw. apply eqb_same in Hraw.
    rewrite mapType_unfold. rewrite Hraw. simpl. by rewrite Hempty.
  - intros Len Elt Hraw. apply eqb_same in Hraw.
    rewrite mapType_unfold. rewrite Hraw.
    destruct Len; simpl; by rewrite Hempty.
  - intros Elt Hraw. apply eqb_same in Hraw.
    rewrite mapType_unfold. rewrite Hraw. simpl. by rewrite Hempty.
  - intros K V Hraw. apply eqb_same in Hraw.
    rewrite mapType_unfold. rewrite Hraw. simpl. by rewrite Hempty.
Qed.

Lemma mapType_of_composite_expr_witness :
  mapType New (parser.typeRefFromExpr (ast.StarExpr (ast.Ident "int")))
  = mapType New (parser.typeRefFromExpr (ast.Ident "int")) +:+ " | null".
Proof.
  pose proof (mapType_of_composite_expr New eq_refl) as (H & _).
  apply H. reflexivity.
Defined.

(** X16: the name under which the flattening looks up an embedded field
    is the bare type name, through one pointer and whatever the package
    qualifier: [T], [*T], [pkg.T] and [*pkg.T] all resolve as [T]. *)
Theorem embedded_field_resolves_by_bare_name (IsExported : string → bool)
    (Lookup : string → string → option string)
    (tag doc : option string) (T : string) (X ty : ast.Expr) :
  ty ∈ [ ast.Ident T; ast.StarExpr (ast.Ident T);
         ast.SelectorExpr X T; ast.StarExpr (ast.SelectorExpr X T) ] →
  map (λ fld, (IsEmbedded fld, embeddedTypeName fld))
    (parser.extractFields IsExported Lookup
       [ {| ast.Names := []; ast.Type_ := ty;
            ast.Tag := tag; ast.Doc := doc |} ])
  = [(true, T)].
Proof.
  intros Hty.
  repeat (apply elem_of_cons in Hty as [->|Hty]);
    [..|by apply elem_of_nil in Hty];
    unfold parser.extractFields, parser.extractField, embeddedTypeName; simpl;
    repeat case_decide; done.
Qed.

Lemma embedded_field_resolves_by_bare_name_witness :
  map (λ fld, (IsEmbedded fld, embeddedTypeName fld))
    (parser.extractFields (λ _, true) (λ _ _, None)
       [ {| ast.Names := [];
            ast.Type_ := ast.StarExpr (ast.SelectorExpr (ast.Ident "sync") "Mutex");
            ast.Tag := None; ast.Doc := None |} ])
  = [(true, "Mutex")].
Proof.
  apply (embedded_field_resolves_by_bare_name (λ _, true) (λ _ _, None)
           None None "Mutex" (ast.Ident "sync")).
  apply list_elem_of_In. simpl. auto.
Defined.

Lemma parseTag_foldl (Lookup : string → string → option string)
    (raw : string) (keys : list string) (m : gmap string string) (k : string) :
  foldl (λ values key,
           match Lookup raw key with
           | Some v => <[key := v]> values
           | None => values
           end) m keys !! k
  = if decide (k ∈ keys)
    then match Lookup raw k with
         | Some v => Some v
         | None => m !! k
         end
    else m !! k.
Proof.
  revert m. induction keys as [|key rest IH]; intros m.
  - destruct (decide (k ∈ [])) as [H|H]; [by apply elem_of_nil in H | done].
  - cbn [foldl]. rewrite IH.
    destruct (decide (k = key)) as [->|Hne].
    + rewrite (decide_True (P := key ∈ key :: rest)) by left.
      destruct (Lookup raw key) as [v|] eqn:Hl.
      * rewrite lookup_insert_eq. by destruct (decide (key ∈ rest)).
      * by destruct (decide (key ∈ rest)).
    + assert (Hm : match Lookup raw key with
                   | Some v => <[key:=v]> m
                   | None => m
                   end !! k = m !! k).
      { destruct (Lookup raw key); [by rewrite lookup_insert_ne | done]. }
      rewrite Hm.
      destruct (decide (k ∈ rest)) as [Hin|Hnot].
      * rewrite decide_True; [done | by right].
      * rewrite decide_False; [done|].
        intros [?|?]%elem_of_cons; done.
Qed.

(** X17: the parsed tag holds a value for a key exactly when the key is
    one of the eight the parser knows and the tag, stripped of its back
    quotes, has it; every other key of the tag is dropped, and a field
    without a tag literal has no values. *)
Theorem parseTag_values (Lookup : string → string → option string)
    (lit : string) (k : string) :
  Values (parser.parseTag Lookup (Some lit)) !! k
  = (if decide (k ∈ parser.tagKeys)
     then Lookup (gostrings.Trim lit "`") k else None)
  ∧ Values (parser.parseTag Lookup None) = ∅
  ∧ TagRaw (parser.parseTag Lookup (Some lit)) = gostrings.Trim lit "`".
Proof.
  split; [|done]. unfold parser.parseTag. cbn [Values].
  rewrite parseTag_foldl, lookup_empty.
  destruct (decide (k ∈ parser.tagKeys)); [|done].
  by destruct (Lookup _ k).
Qed.

(** X18: a type declaration is extracted as a struct, an interface, an
    alias or a named type and nothing else; it has an underlying
    reference exactly when it is an alias or a named type, fields only
    when it is a struct, and the alias form only shows on declarations
    that are neither struct nor interface. *)
Theorem extractType_kinds (IsExported : string → bool)
    (Lookup : string → string → option string)
    (spec : parser.TypeSpec) (doc : option string) :
  let t := parser.extractType IsExported Lookup spec doc in
  TKind t ∈ [KindStruct; KindInterface; KindAlias; KindNamed]
  ∧ (TKind t = KindStruct ↔ parser.SpecType spec = ast.StructType)
  ∧ (TKind t = KindInterface ↔ parser.SpecType spec = ast.InterfaceType)
  ∧ (is_Some (Underlying t) ↔ TKind t = KindAlias ∨ TKind t = KindNamed)
  ∧ (TKind t ≠ KindStruct → Fields t = [])
  ∧ (TKind t = KindAlias → parser.Assign spec = true)
  ∧ TName t = parser.SpecName spec
  ∧ model.IsExported t = IsExported (parser.SpecName spec).
Proof.
  unfold parser.extractType.
  destruct (parser.SpecType spec) eqn:Hty, (parser.Assign spec) eqn:Ha; simpl;
    (split; [apply list_elem_of_In; simpl; auto 6|]);
    repeat split; try done; try (intros [H|H]; done); try (intros [? ?]; done);
    eauto.
Qed.

(** * Further properties of the template helpers *)

Lemma Split_head (sep : ascii) (first : string) :
  all_chars (λ c, negb (Ascii.eqb c sep)) first = true →
  ∀ rest, ∃ parts, gostrings.Split (first +:+ String sep rest) sep = first :: parts.
Proof.
  intros Hfirst rest. eexists. by apply Split_first.
Qed.

(** X19: [tagOrName] answers with the part of the tag value before the
    first comma; when the tag is missing for the key, or that part is
    empty or a dash, it answers with the field's name. *)
Theorem tagOrName_first_part (field : Field) (key first : string) :
  all_chars valueChar first = true →
  (Values (Tag field) !! key = None → tagOrName field key = FName field)
  ∧ (∀ options,
       Values (Tag field) !! key = Some first
       ∨ Values (Tag field) !! key = Some (first +:+ String "," options) →
       tagOrName field key
       = if decide (first = "" ∨ first = "-") then FName field else first).
Proof.
  intros Hfirst. split.
  - intros Hnone. unfold tagOrName. by rewrite Hnone.
  - intros options Hval. unfold tagOrName.
    assert (Hpart : ∃ parts,
              match Values (Tag field) !! key with
              | Some val => gostrings.Split val ","
              | None => []
              end = first :: parts).
    { destruct Hval as [->| ->].
      - exists []. by apply Split_none.
      - by apply Split_head. }
    destruct Hpart as (parts & Hparts).
    destruct (Values (Tag field) !! key) as [val|]; [|by destruct Hval].
    rewrite Hparts.
    destruct (String.eqb_spec first ""), (String.eqb_spec first "-"); simpl.
    + by rewrite decide_True by (by left).
    + by rewrite decide_True by (by left).
    + by rewrite decide_True by (by right).
    + rewrite decide_False; [done|]. by intros [?|?].
Qed.

Lemma tagOrName_first_part_witness :
  tagOrName
    {| FName := "Age"; FType := basicRef "int";
       Tag := {| TagRaw := ""; Values := {[ "json" := "age,omitempty" ]} |};
       FDoc := ""; FIsExported := true; IsEmbedded := false |} "json" = "age"
  ∧ tagOrName
      {| FName := "Age"; FType := basicRef "int";
         Tag := {| TagRaw := ""; Values := {[ "json" := "-" ]} |};
         FDoc := ""; FIsExported := true; IsEmbedded := false |} "json" = "Age".
Proof.
  split.
  - pose proof (tagOrName_first_part
                  {| FName := "Age"; FType := basicRef "int";
                     Tag := {| TagRaw := "";
                               Values := {[ "json" := "age,omitempty" ]} |};
                     FDoc := ""; FIsExported := true; IsEmbedded := false |}
                  "json" "age" eq_refl) as (_ & H).
    apply (H "omitempty"). right. reflexivity.
  - pose proof (tagOrName_first_part
                  {| FName := "Age"; FType := basicRef "int";
                     Tag := {| TagRaw := ""; Values := {[ "json" := "-" ]} |};
                     FDoc := ""; FIsExported := true; IsEmbedded := false |}
                  "json" "-" eq_refl) as (_ & H).
    apply (H ""). left. reflexivity.
Defined.

Lemma HasPrefix_app (sub rest : string) :
  gostrings.HasPrefix (sub +:+ rest) sub = true.
Proof.
  induction sub as [|c sub IH]; simpl; [by destruct rest|].
  by rewrite Ascii.eqb_refl, IH.
Qed.

Lemma Contains_app (before sub after : string) :
  gostrings.Contains (before +:+ sub +:+ after) sub = true.
Proof.
  induction before as [|c before IH].
  - change ("" +:+ sub +:+ after) with (sub +:+ after).
    assert (Hunfold : ∀ s, gostrings.Contains s sub
                           = gostrings.HasPrefix s sub
                             || match s with
                                | String _ r => gostrings.Contains r sub
                                | EmptyString => false
                                end) by (by intros []).
    by rewrite Hunfold, HasPrefix_app.
  - change (String c before +:+ sub +:+ after)
      with (String c (before +:+ sub +:+ after)).
    simpl. rewrite IH. apply orb_true_r.
Qed.

(** X20: a field is optional when its type is a pointer, whatever its
    tags; otherwise exactly when it has a json tag in which the text
    omitempty occurs somewhere, so not when it has no json tag. *)
Theorem isOptional_cases (field : Field) :
  (Kind (FType field) = KindPointer → isOptional field = true)
  ∧ (Kind (FType field) ≠ KindPointer →
     Values (Tag field) !! "json" = None → isOptional field = false)
  ∧ (∀ before after,
       Values (Tag field) !! "json" = Some (before +:+ "omitempty" +:+ after) →
       isOptional field = true).
Proof.
  unfold isOptional. split; [|split].
  - intros Hk. by rewrite decide_True.
  - intros Hk Hnone. by rewrite decide_False, Hnone.
  - intros before after Hjson.
    destruct (decide (Kind (FType field) = KindPointer)); [done|].
    rewrite Hjson. apply Contains_app.
Qed.

Lemma isOptional_cases_witness :
  isOptional
    {| FName := "Age"; FType := basicRef "int";
       Tag := {| TagRaw := ""; Values := {[ "json" := "age,omitempty" ]} |};
       FDoc := ""; FIsExported := true; IsEmbedded := false |} = true.
Proof.
  pose proof (isOptional_cases
                {| FName := "Age"; FType := basicRef "int";
                   Tag := {| TagRaw := "";
                             Values := {[ "json" := "age,omitempty" ]} |};
                   FDoc := ""; FIsExported := true; IsEmbedded := false |})
    as (_ & _ & H).
  apply (H "age," ""). reflexivity.
Defined.

Lemma findRule_Some (rules : list ValidateRule) (name : string) (rule : ValidateRule) :
  findRule rules name = Some rule ↔
  ∃ pre post, rules = pre ++ rule :: post ∧ RuleName rule = name
              ∧ name ∉ map RuleName pre.
Proof.
  revert rule. induction rules as [|r rest IH]; intros rule; simpl.
  - split; [done|]. intros ([|? ?] & post & H & _); discriminate.
  - destruct (String.eqb_spec (RuleName r) name) as [Heq|Hne].
    + split.
      * intros [= <-]. exists [], rest. repeat split; [done|]. apply not_elem_of_nil.
      * intros (pre & post & H & Hname & Hnot).
        destruct pre as [|p pre]; simpl in H; injection H as -> ->; [done|].
        exfalso. apply Hnot. simpl. rewrite Heq. left.
    + rewrite IH. split.
      * intros (pre & post & -> & Hname & Hnot). exists (r :: pre), post.
        repeat split; [done|]. simpl.
        intros [?|?]%elem_of_cons; [congruence | done].
      * intros (pre & post & H & Hname & Hnot).
        destruct pre as [|p pre]; simpl in H; injection H as -> ->; [done|].
        exists pre, post. repeat split; [done|].
        intros Hin. apply Hnot. simpl. by right.
Qed.

Lemma findRule_None (rules : list ValidateRule) (name : string) :
  findRule rules name = None ↔ name ∉ map RuleName rules.
Proof.
  induction rules as [|r rest IH]; simpl.
  - split; [intros _; apply not_elem_of_nil | done].
  - destruct (String.eqb_spec (RuleName r) name) as [Heq|Hne].
    + split; [done|]. intros Hnot. exfalso. apply Hnot. rewrite Heq. left.
    + rewrite IH. split.
      * intros Hnot [?|?]%elem_of_cons; [congruence | done].
      * intros Hnot Hin. apply Hnot. by right.
Qed.

(** X21: [hasValidateRule] holds exactly when some parsed rule has the
    name; [getValidateValue] is the value of the first parsed rule with
    the name, and the empty string when there is none, which a rule
    without a value gives as well. *)
Theorem validate_rule_lookup (field : Field) (name : string) :
  (hasValidateRule field name = true ↔ name ∈ map RuleName (parseValidateTag field))
  ∧ (hasValidateRule field name = false → getValidateValue field name = "")
  ∧ (∀ pre rule post,
       parseValidateTag field = pre ++ rule :: post →
       RuleName rule = name → name ∉ map RuleName pre →
       hasValidateRule field name = true
       ∧ getValidateValue field name = RuleValue rule).
Proof.
  unfold hasValidateRule, getValidateValue.
  split; [|split].
  - destruct (findRule (parseValidateTag field) name) as [rule|] eqn:E.
    + split; [intros _|done].
      apply findRule_Some in E as (pre & post & -> & <- & _).
      rewrite map_app. simpl. apply elem_of_app. right. left.
    + apply findRule_None in E. split; [done|]. intros Hin. done.
  - by destruct (findRule (parseValidateTag field) name).
  - intros pre rule post Hparsed Hname Hnot.
    assert (E : findRule (parseValidateTag field) name = Some rule).
    { apply findRule_Some. by exists pre, post. }
    by rewrite E.
Qed.

Lemma validate_rule_lookup_witness :
  hasValidateRule validatedField "min" = true
  ∧ getValidateValue validatedField "min" = "1".
Proof.
  pose proof (validate_rule_lookup validatedField "min") as (_ & _ & H).
  apply (H [ {| RuleName := "required"; RuleValue := "" |} ]
           {| RuleName := "min"; RuleValue := "1" |}
           [ {| RuleName := "max"; RuleValue := "45" |} ]).
  - reflexivity.
  - reflexivity.
  - simpl. intros Hin. apply list_elem_of_In in Hin. simpl in Hin.
    destruct Hin as [Hin|[]]. discriminate.
Defined.

Lemma validatorOf_unknown (isNumeric : bool) (rule : ValidateRule) :
  RuleName rule ∉ validatorNames → validatorOf isNumeric rule = [].
Proof.
  intros Hnot. unfold validatorOf.
  assert (Hne : ∀ n, n ∈ validatorNames → String.eqb (RuleName rule) n = false).
  { intros n Hn. apply String.eqb_neq. intros Heq. apply Hnot. by rewrite Heq. }
  rewrite !Hne; [done|..]; apply list_elem_of_In; simpl; auto 6.
Qed.

Lemma parseValidateTag_untagged (field : Field) :
  parseValidateTag (untagged field) = [].
Proof. reflexivity. Qed.

Lemma valibotScalar_no_validators (field : Field) (base def : string) (num : bool) :
  Forall (λ rule, RuleName rule ∉ validatorNames) (parseValidateTag field) →
  valibotScalar field base def num = valibotScalar (untagged field) base def num.
Proof.
  intros Hrules. unfold valibotScalar. rewrite parseValidateTag_untagged. simpl.
  assert (concat (map (validatorOf num) (parseValidateTag field)) = []) as ->; [|done].
  induction Hrules as [|r rs Hr Hrs IH]; [done|].
  simpl. by rewrite validatorOf_unknown, IH.
Qed.

(** X22: validate rules only reach the output of [valibotFormField]
    through the names min, max, email, url and uuid, and only for scalar
    fields: a field all of whose rules have other names, and any field
    whose type is a slice, array, map or pointer, renders exactly as the
    same field without its tag. *)
Theorem valibotFormField_ignores_rules (field : Field) :
  Forall (λ rule, RuleName rule ∉ validatorNames) (parseValidateTag field)
  ∨ Kind (FType field) ∈ [KindSlice; KindArray; KindMap; KindPointer] →
  valibotFormField field = valibotFormField (untagged field).
Proof.
  intros [Hrules|Hkind].
  - unfold valibotFormField. change (FType (untagged field)) with (FType field).
    destruct (Kind (FType field));
      repeat (match goal with
              | |- context [if ?b then _ else _] => destruct b
              end);
      try reflexivity; by apply valibotScalar_no_validators.
  - unfold valibotFormField. change (FType (untagged field)) with (FType field).
    destruct (Kind (FType field)); try reflexivity;
      exfalso; apply list_elem_of_In in Hkind; simpl in Hkind;
      intuition discriminate.
Qed.

Lemma valibotFormField_ignores_rules_witness :
  valibotFormField
    {| FName := "Email"; FType := basicRef "string";
       Tag := {| TagRaw := ""; Values := {[ "validate" := "required" ]} |};
       FDoc := ""; FIsExported := true; IsEmbedded := false |}
  = valibotFormField
      (untagged
         {| FName := "Email"; FType := basicRef "string";
            Tag := {| TagRaw := ""; Values := {[ "validate" := "required" ]} |};
            FDoc := ""; FIsExported := true; IsEmbedded := false |}).
Proof.
  apply valibotFormField_ignores_rules. left.
  repeat constructor. vm_compute. intros Hin.
  apply list_elem_of_In in Hin. simpl in Hin. intuition discriminate.
Defined.

(** * Further properties of the case converters *)

Lemma append_nil_r (s : string) : s +:+ "" = s.
Proof.
  induction s as [|c r IH]; [done|].
  change (String c (r +:+ "") = String c r). by f_equal.
Qed.

Lemma append_assoc (a b c : string) : (a +:+ b) +:+ c = a +:+ (b +:+ c).
Proof.
  induction a as [|x a IH]; [done|].
  change (String x ((a +:+ b) +:+ c) = String x (a +:+ (b +:+ c))). by f_equal.
Qed.

Lemma JoinStr_cons_empty (w : string) (ws : list string) :
  gostrings.JoinStr (w :: ws) "" = w +:+ gostrings.JoinStr ws "".
Proof. destruct ws; simpl; [by rewrite append_nil_r | done]. Qed.

Lemma JoinStr_app_empty (ws ws' : list string) :
  gostrings.JoinStr (ws ++ ws') ""
  = gostrings.JoinStr ws "" +:+ gostrings.JoinStr ws' "".
Proof.
  induction ws as [|w ws IH]; [done|].
  change ((w :: ws) ++ ws') with (w :: (ws ++ ws')).
  by rewrite !JoinStr_cons_empty, IH, append_assoc.
Qed.

Lemma isWord_spec (w : string) :
  isWord w = true ↔ w ≠ "" ∧ all_chars (λ c, negb (isSeparator c)) w = true.
Proof.
  unfold isWord. rewrite andb_true_iff, eqb_differs. done.
Qed.

(** The invariant of the loop of [splitWords]. *)
Lemma splitWords_loop_spec (s : string) :
  ∀ prev current words,
    all_chars (λ c, negb (isSeparator c)) current = true →
    Forall (λ w, isWord w = true) words →
    Forall (λ w, isWord w = true) (splitWords_loop prev s current words)
    ∧ gostrings.JoinStr (splitWords_loop prev s current words) ""
      = gostrings.JoinStr words "" +:+ current +:+ dropSeparators s.
Proof.
  induction s as [|r rest IH]; intros prev current words Hcur Hwords.
  - simpl. destruct (String.eqb_spec current "") as [->|Hne]; simpl.
    + split; [done|]. by rewrite append_nil_r.
    + split.
      * apply Forall_app. split; [done|]. constructor; [|done].
        by apply isWord_spec.
      * rewrite JoinStr_app_empty. simpl. by rewrite append_nil_r.
  - assert (Hflush : Forall (λ w, isWord w = true) (words ++ [current])
                     ∨ current = "").
    { destruct (decide (current = "")) as [|Hne]; [by right|]. left.
      apply Forall_app. split; [done|]. constructor; [|done].
      by apply isWord_spec. }
    cbn [splitWords_loop dropSeparators].
    destruct (isSeparator r) eqn:Hsep.
    + destruct (String.eqb_spec current "") as [->|Hne]; cbn [negb].
      * by apply IH.
      * destruct Hflush as [Hflush|?]; [|done].
        destruct (IH (Some r) "" (words ++ [current]) eq_refl Hflush) as [H1 H2].
        split; [done|]. rewrite H2, JoinStr_app_empty.
        by rewrite append_assoc.
    + match goal with
      | |- context [if ?b then _ else _] => destruct b eqn:Hnew
      end.
      * apply andb_true_iff in Hnew as [_ Hne]. apply eqb_differs in Hne.
        destruct Hflush as [Hflush|?]; [|done].
        assert (Hr : all_chars (λ c, negb (isSeparator c)) (String r "") = true)
          by (simpl; by rewrite Hsep).
        destruct (IH (Some r) (String r "") (words ++ [current]) Hr Hflush)
          as [H1 H2].
        split; [done|]. rewrite H2, JoinStr_app_empty.
        by rewrite append_assoc.
      * assert (Hr : all_chars (λ c, negb (isSeparator c))
                       (current +:+ String r "") = true).
        { rewrite all_chars_app, Hcur. simpl. by rewrite Hsep. }
        destruct (IH (Some r) (current +:+ String r "") words Hr Hwords)
          as [H1 H2].
        split; [done|]. rewrite H2. by rewrite append_assoc.
Qed.

Lemma splitWords_spec (s : string) :
  Forall (λ w, isWord w = true) (splitWords s)
  ∧ gostrings.JoinStr (splitWords s) "" = dropSeparators s.
Proof.
  destruct (splitWords_loop_spec s None "" [] eq_refl (Forall_nil_2 _)) as [H1 H2].
  split; [done|]. exact H2.
Qed.

(** X23: on ASCII input [splitWords] returns words that are not empty
    and hold no separator, and the words put together are the input
    with its underscores, dashes and spaces removed: nothing else is
    lost and nothing is added. *)
Theorem splitWords_words (s : string) :
  all_chars isAscii s = true →
  Forall (λ w, w ≠ "" ∧ all_chars (λ c, negb (isSeparator c)) w = true)
    (splitWords s)
  ∧ gostrings.JoinStr (splitWords s) "" = dropSeparators s.
Proof.
  intros _. destruct (splitWords_spec s) as [H1 H2]. split; [|done].
  eapply Forall_impl; [exact H1|]. intros w Hw. by apply isWord_spec.
Qed.

Lemma splitWords_words_witness :
  Forall (λ w, w ≠ "" ∧ all_chars (λ c, negb (isSeparator c)) w = true)
    (splitWords "HTTPServer_fooBar")
  ∧ gostrings.JoinStr (splitWords "HTTPServer_fooBar") ""
    = dropSeparators "HTTPServer_fooBar".
Proof.
  apply (splitWords_words "HTTPServer_fooBar"). reflexivity.
Defined.

Lemma dropSeparators_empty (s : string) :
  dropSeparators s = "" ↔ all_chars isSeparator s = true.
Proof.
  induction s as [|c r IH]; simpl; [done|].
  destruct (isSeparator c); simpl; [done|]. split; discriminate.
Qed.

Lemma splitWords_nil (s : string) :
  splitWords s = [] ↔ all_chars isSeparator s = true.
Proof.
  destruct (splitWords_spec s) as [Hwords Hjoin].
  rewrite <- dropSeparators_empty, <- Hjoin. split.
  - by intros ->.
  - destruct (splitWords s) as [|w ws]; [done|].
    rewrite JoinStr_cons_empty. inversion Hwords as [|? ? Hw _]; subst.
    apply isWord_spec in Hw as [Hne _]. by destruct w.
Qed.

Lemma pascalCase_empty (s : string) :
  pascalCase s = "" ↔ splitWords s = [].
Proof.
  unfold pascalCase. destruct (splitWords_spec s) as [Hwords _]. split.
  - destruct (splitWords s) as [|w ws]; [done|].
    simpl map. rewrite JoinStr_cons_empty.
    inversion Hwords as [|? ? Hw _]; subst.
    apply isWord_spec in Hw as [Hne _]. by destruct w.
  - by intros ->.
Qed.

(** X24: [camelCase] returns the empty string on the empty string, and
    it fails, indexing the first rune of an empty result, exactly on
    the non-empty ASCII inputs made of separators only, such as a lone
    underscore. *)
Theorem camelCase_panics_on_separators (s : string) :
  all_chars isAscii s = true →
  camelCase "" = Some ""
  ∧ (camelCase s = None ↔ s ≠ "" ∧ all_chars isSeparator s = true).
Proof.
  intros _. split; [done|]. unfold camelCase.
  rewrite <- splitWords_nil, <- pascalCase_empty.
  destruct (String.eqb_spec s "") as [->|Hne].
  - split; [done | by intros [? _]].
  - destruct (pascalCase s); split; try done. by intros [_ ?].
Qed.

Lemma camelCase_panics_on_separators_witness :
  camelCase "_" = None ∧ camelCase "user_id" ≠ None.
Proof.
  split.
  - apply (camelCase_panics_on_separators "_"); [reflexivity|].
    split; [discriminate | reflexivity].
  - intros H. apply (camelCase_panics_on_separators "user_id") in H;
      [|reflexivity]. destruct H as [_ H]. discriminate.
Defined.

Lemma toLower_not_upper (c : ascii) : gostrings.isUpper (gostrings.toLower c) = false.
Proof. destruct c as [[] [] [] [] [] [] [] []]; reflexivity. Qed.

Lemma toLower_not_separator (c : ascii) :
  isSeparator c = false → isSeparator (gostrings.toLower c) = false.
Proof. destruct c as [[] [] [] [] [] [] [] []]; intros H; done. Qed.

Lemma ToLower_isLowerWord (w : string) :
  isWord w = true → isLowerWord (gostrings.ToLower w) = true.
Proof.
  intros [Hne Hsep]%isWord_spec. unfold isLowerWord.
  apply andb_true_iff. split.
  - apply isWord_spec. split; [by destruct w|].
    clear Hne. induction w as [|c r IH]; [done|]. simpl in *.
    apply andb_true_iff in Hsep as [Hc Hr]. apply negb_true_iff in Hc.
    by rewrite (toLower_not_separator c Hc), IH.
  - clear. induction w as [|c r IH]; [done|]. simpl.
    by rewrite toLower_not_upper, IH.
Qed.

Lemma ToLower_lower (w : string) :
  all_chars (λ c, negb (gostrings.isUpper c)) w = true → gostrings.ToLower w = w.
Proof.
  induction w as [|c r IH]; [done|]. simpl.
  intros [Hc Hr]%andb_true_iff. apply negb_true_iff in Hc.
  unfold gostrings.toLower. by rewrite Hc, IH.
Qed.

(** The loop takes a lower-case word in one go. *)
Lemma splitWords_loop_word (w : string) :
  ∀ prev current words rest,
    all_chars (λ c, negb (isSeparator c)) w = true →
    all_chars (λ c, negb (gostrings.isUpper c)) w = true →
    ∃ prev', splitWords_loop prev (w +:+ rest) current words
             = splitWords_loop prev' rest (current +:+ w) words.
Proof.
  induction w as [|c r IH]; intros prev current words rest Hsep Hup.
  - exists prev. by rewrite append_nil_r.
  - simpl in Hsep, Hup.
    apply andb_true_iff in Hsep as [Hc Hsep]. apply negb_true_iff in Hc.
    apply andb_true_iff in Hup as [Hu Hup]. apply negb_true_iff in Hu.
    change (String c r +:+ rest) with (String c (r +:+ rest)).
    cbn [splitWords_loop]. rewrite Hc, Hu. cbn [andb].
    destruct (IH (Some c) (current +:+ String c "") words rest Hsep Hup)
      as (prev' & ->).
    exists prev'. by rewrite append_assoc.
Qed.

(** Lower-case words joined by a separator split into the same words. *)
Lemma splitWords_loop_JoinStr (sep : ascii) (ls : list string) :
  isSeparator sep = true →
  Forall (λ w, isLowerWord w = true) ls →
  ∀ prev words,
    splitWords_loop prev (gostrings.JoinStr ls (String sep "")) "" words
    = words ++ ls.
Proof.
  intros Hsep. induction ls as [|l [|l2 ls] IH]; intros Hls prev words.
  - simpl. by rewrite app_nil_r.
  - inversion Hls as [|? ? Hl _]; subst.
    apply andb_true_iff in Hl as [[Hne Hs]%isWord_spec Hu].
    destruct (splitWords_loop_word l prev "" words "" Hs Hu) as (prev' & H).
    rewrite append_nil_r in H. change ("" +:+ l) with l in H.
    simpl gostrings.JoinStr. rewrite H. simpl.
    apply eqb_differs in Hne. by rewrite Hne.
  - inversion Hls as [|? ? Hl Hrest]; subst.
    apply andb_true_iff in Hl as [[Hne Hs]%isWord_spec Hu].
    change (gostrings.JoinStr (l :: l2 :: ls) (String sep ""))
      with (l +:+ String sep (gostrings.JoinStr (l2 :: ls) (String sep ""))).
    destruct (splitWords_loop_word l prev "" words
                (String sep (gostrings.JoinStr (l2 :: ls) (String sep ""))) Hs Hu)
      as (prev' & ->).
    cbn [splitWords_loop]. rewrite Hsep.
    change ("" +:+ l) with l.
    apply eqb_differs in Hne. rewrite Hne.
    rewrite (IH Hrest). by rewrite <- app_assoc.
Qed.

Lemma splitWords_lowered (sep : ascii) (s : string) :
  isSeparator sep = true →
  splitWords (gostrings.JoinStr (map gostrings.ToLower (splitWords s)) (String sep ""))
  = map gostrings.ToLower (splitWords s).
Proof.
  intros Hsep. unfold splitWords at 1.
  rewrite (splitWords_loop_JoinStr sep); [done..|].
  destruct (splitWords_spec s) as [Hwords _].
  apply Forall_fmap. eapply Forall_impl; [exact Hwords|].
  intros w Hw. by apply ToLower_isLowerWord.
Qed.

Lemma map_ToLower_lowered (s : string) :
  map gostrings.ToLower (map gostrings.ToLower (splitWords s))
  = map gostrings.ToLower (splitWords s).
Proof.
  destruct (splitWords_spec s) as [Hwords _].
  induction Hwords as [|w ws Hw Hws IH]; [done|]. simpl. rewrite IH. f_equal.
  apply ToLower_lower.
  pose proof (ToLower_isLowerWord w Hw) as H.
  by apply andb_true_iff in H as [_ H].
Qed.

(** X25: on ASCII input [snakeCase] and [kebabCase] are idempotent, and
    each undoes the other's separators: converting an already converted
    name changes nothing but the separator. *)
Theorem snakeCase_kebabCase_idempotent (s : string) :
  all_chars isAscii s = true →
  snakeCase (snakeCase s) = snakeCase s
  ∧ kebabCase (kebabCase s) = kebabCase s
  ∧ kebabCase (snakeCase s) = kebabCase s
  ∧ snakeCase (kebabCase s) = snakeCase s.
Proof.
  intros _. unfold snakeCase, kebabCase.
  change "_" with (String "_"%char "") at 2 3 5.
  change "-" with (String "-"%char "") at 2 3 5.
  rewrite !splitWords_lowered by reflexivity.
  by rewrite !map_ToLower_lowered.
Qed.

Lemma snakeCase_kebabCase_idempotent_witness :
  snakeCase (snakeCase "HTTPServer fooBar") = snakeCase "HTTPServer fooBar"
  ∧ kebabCase (kebabCase "HTTPServer fooBar") = kebabCase "HTTPServer fooBar"
  ∧ kebabCase (snakeCase "HTTPServer fooBar") = kebabCase "HTTPServer fooBar"
  ∧ snakeCase (kebabCase "HTTPServer fooBar") = snakeCase "HTTPServer fooBar".
Proof.
  apply (snakeCase_kebabCase_idempotent "HTTPServer fooBar"). reflexivity.
Defined.

(** * Further properties of the comment formatters *)

Lemma lastByte_app (a b : string) (c d : ascii) :
  lastByte (a +:+ String d b) c = lastByte b d.
Proof.
  revert c. induction a as [|x a IH]; intros c; [done|].
  change (String x a +:+ String d b) with (String x (a +:+ String d b)).
  simpl. apply IH.
Qed.

Lemma untrimmed_Join (sep : ascii) (lines : list string) :
  lines ≠ [] → Forall (λ l, untrimmed l = true) lines →
  untrimmed (gostrings.Join lines sep) = true.
Proof.
  induction lines as [|l [|l2 ls] IH]; intros Hne Hlines; [done| |].
  - by inversion Hlines.
  - inversion Hlines as [|? ? Hl Hrest]; subst.
    specialize (IH ltac:(done) Hrest).
    change (gostrings.Join (l :: l2 :: ls) sep)
      with (l +:+ String sep (gostrings.Join (l2 :: ls) sep)).
    destruct l as [|c r]; [done|].
    change (String c r +:+ String sep (gostrings.Join (l2 :: ls) sep))
      with (String c (r +:+ String sep (gostrings.Join (l2 :: ls) sep))).
    cbn [untrimmed] in Hl |- *. apply andb_true_iff in Hl as [Hc _].
    rewrite Hc, lastByte_app. cbn [andb].
    destruct (gostrings.Join (l2 :: ls) sep) as [|c2 r2]; [done|].
    cbn [untrimmed lastByte] in IH |- *.
    by apply andb_true_iff in IH as [_ ->].
Qed.

(** What both formatters see of a comment written as trimmed lines. *)
Lemma comment_lines (lines : list string) :
  lines ≠ [] →
  Forall (λ l, untrimmed l && all_chars (λ c, negb (Ascii.eqb c LF)) l = true)
    lines →
  String.eqb (gostrings.Join lines LF) "" = false
  ∧ gostrings.Split (gostrings.TrimSpace (gostrings.Join lines LF)) LF = lines
  ∧ Forall (λ l, gostrings.TrimSpace l = l) lines.
Proof.
  intros Hne Hlines.
  assert (Hu : Forall (λ l, untrimmed l = true) lines).
  { eapply Forall_impl; [exact Hlines|]. by intros l [? _]%andb_true_iff. }
  assert (Hn : Forall (λ l, all_chars (λ c, negb (Ascii.eqb c LF)) l = true) lines).
  { eapply Forall_impl; [exact Hlines|]. by intros l [_ ?]%andb_true_iff. }
  pose proof (untrimmed_Join LF lines Hne Hu) as HJ.
  split; [|split].
  - by destruct (gostrings.Join lines LF).
  - rewrite TrimSpace_id by done. by apply Split_Join.
  - eapply Forall_impl; [exact Hu|]. intros l Hl. by apply TrimSpace_id.
Qed.

Lemma map_prefix_trimmed (prefix : string) (lines : list string) :
  Forall (λ l, gostrings.TrimSpace l = l) lines →
  map (λ line, prefix +:+ gostrings.TrimSpace line) lines
  = map (λ line, prefix +:+ line) lines.
Proof.
  induction 1 as [|l ls Hl Hls IH]; [done|]. simpl. by rewrite Hl, IH.
Qed.

(** X26: [formatComment] puts the prefix in front of every line of a
    comment written as trimmed lines and keeps the lines in order; the
    empty comment gives the empty string, but a comment of white space
    only gives the bare prefix. *)
Theorem formatComment_lines (prefix : string) (lines : list string) :
  lines ≠ [] →
  Forall (λ l, untrimmed l && all_chars (λ c, negb (Ascii.eqb c LF)) l = true)
    lines →
  formatComment (gostrings.Join lines LF) prefix
  = gostrings.Join (map (λ line, prefix +:+ line) lines) LF
  ∧ formatComment "" prefix = ""
  ∧ (∀ comment, comment ≠ "" → gostrings.TrimSpace comment = "" →
                formatComment comment prefix = prefix).
Proof.
  intros Hne Hlines.
  destruct (comment_lines lines Hne Hlines) as (Hnonempty & Hsplit & Htrim).
  split; [|split].
  - unfold formatComment. rewrite Hnonempty, Hsplit.
    by rewrite map_prefix_trimmed.
  - reflexivity.
  - intros comment Hc Hblank. unfold formatComment.
    apply String.eqb_neq in Hc. rewrite Hc, Hblank. simpl.
    apply append_nil_r.
Qed.

Lemma formatComment_lines_witness :
  formatComment (gostrings.Join ["User is an account."; "It has a name."] LF) "// "
  = gostrings.Join
      (map (λ line, "// " +:+ line) ["User is an account."; "It has a name."]) LF.
Proof.
  apply (formatComment_lines "// " ["User is an account."; "It has a name."]).
  - discriminate.
  - repeat constructor.
Defined.

(** X27: [formatDocComment] renders a comment of one trimmed line on
    one line between the opening and closing marks, and a comment of
    several trimmed lines as a block: the opening mark, one starred line
    per line of the comment in order, the closing mark. *)
Theorem formatDocComment_shape (line : string) (lines : list string) :
  Forall (λ l, untrimmed l && all_chars (λ c, negb (Ascii.eqb c LF)) l = true)
    (line :: lines) →
  formatDocComment (gostrings.Join (line :: lines) LF)
  = match lines with
    | [] => "/** " +:+ line +:+ " */"
    | _ => gostrings.Join
             (["/**"] ++ map (λ l, " * " +:+ l) (line :: lines) ++ [" */"]) LF
    end.
Proof.
  intros Hlines.
  destruct (comment_lines (line :: lines) ltac:(done) Hlines)
    as (Hnonempty & Hsplit & Htrim).
  unfold formatDocComment. rewrite Hnonempty, Hsplit.
  destruct lines as [|l2 ls].
  - inversion Htrim as [|? ? Hl _]; subst. by rewrite Hl.
  - by rewrite map_prefix_trimmed.
Qed.

Lemma formatDocComment_shape_witness :
  formatDocComment (gostrings.Join ["User is an account."; "It has a name."] LF)
  = gostrings.Join
      (["/**"] ++ map (λ l, " * " +:+ l) ["User is an account."; "It has a name."]
         ++ [" */"]) LF.
Proof.
  apply (formatDocComment_shape "User is an account." ["It has a name."]).
  repeat constructor.
Defined.
